(** * Data partition of the storage node (package datanode)

    A shallow embedding of the data partition lifecycle code: the
    metadata record and its validation, capacity accounting, the status
    machine, the replica refresh, metadata persistence, partition stop
    and the extent repair cycle.

    Conventions.
    - Go's [int], [int64] and [uint64] are integers of [Z] together with
      an explicit wrap-around ([wrap_int64], [wrap_uint64]).
    - Go strings are byte strings ([string]).
    - A Go [error] result is an [option error]: [None] is [nil].
    - Calls that leave the package (the extent store, the master client,
      the standard library where it is not re-implemented here, the
      operating system) are parameters of the development or explicit
      observations handed to the function that makes the call. *)

From Stdlib Require Import ZArith Lia Bool List Ascii String.
From Stdlib Require Import Sorting.Sorted Sorting.Permutation.
From stdpp Require Import base option list strings gmap pretty.

Import ListNotations.
Local Open Scope string_scope.
Local Open Scope Z_scope.

(** ** Machine integers *)

Definition wrap_uint64 (z : Z) : Z := z mod 2 ^ 64.

Definition wrap_int64 (z : Z) : Z := (z + 2 ^ 63) mod 2 ^ 64 - 2 ^ 63.

Definition maxUint64 : Z := 2 ^ 64 - 1.
Definition maxInt64 : Z := 2 ^ 63 - 1.
Definition minInt64 : Z := - 2 ^ 63.

Definition in_int64 (z : Z) : Prop := minInt64 <= z <= maxInt64.

(** ** Errors *)

Inductive error : Type := NewError (msg : string).

(** A call either returns or panics (a run-time fault of the Go program). *)
Inductive outcome (A : Type) : Type :=
| Returns (a : A)
| Panics (msg : string).
Arguments Returns {A} a.
Arguments Panics {A} msg.

(** ** package strconv *)

Definition is_digit (c : ascii) : bool :=
  let n := Z.of_nat (nat_of_ascii c) in (48 <=? n) && (n <=? 57).

Definition digit_val (c : ascii) : Z := Z.of_nat (nat_of_ascii c) - 48.

Inductive NumError : Type := ErrSyntax | ErrRange.

(** The digit loop of [strconv.ParseUint(s, 10, 64)]: [n] is the value
    accumulated so far. *)
Fixpoint parseUint_loop (s : string) (n : Z) : Z * option NumError :=
  match s with
  | EmptyString => (n, None)
  | String c rest =>
      if negb (is_digit c) then (0, Some ErrSyntax)
      else if maxUint64 / 10 + 1 <=? n then (maxUint64, Some ErrRange)
      else
        let n1 := n * 10 + digit_val c in
        if maxUint64 <? n1 then (maxUint64, Some ErrRange)
        else parseUint_loop rest n1
  end.

(** [strconv.ParseUint(s, 10, 64)]. *)
Definition ParseUint (s : string) : Z * option NumError :=
  match s with
  | EmptyString => (0, Some ErrSyntax)
  | _ => parseUint_loop s 0
  end.

(** ** package strings *)

(** [strings.Split(s, sep)] for a separator of one byte. *)
Fixpoint Split_byte (sep : ascii) (s : string) : list string :=
  match s with
  | EmptyString => [EmptyString]
  | String c rest =>
      if Ascii.eqb c sep then EmptyString :: Split_byte sep rest
      else match Split_byte sep rest with
           | [] => [String c EmptyString]
           | h :: t => String c h :: t
           end
  end.

(** Does the byte [c] occur in [s]? *)
Fixpoint has_byte (c : ascii) (s : string) : bool :=
  match s with
  | EmptyString => false
  | String a rest => Ascii.eqb a c || has_byte c rest
  end.

(** ** package math: the float64 detour of [statusUpdate]

    A finite float64 is represented by the rational it denotes; every
    value met here is an integer, so the carrier is [Z]. *)

(** [float64(z)] for an integer [z]: the nearest float64, ties to even
    (53 bits of mantissa). *)
Definition float64_of_int (z : Z) : Z :=
  let a := Z.abs z in
  if a <? 2 ^ 53 then z
  else
    let e := Z.log2 a - 52 in
    let q := a / 2 ^ e in
    let r := a mod 2 ^ e in
    let half := 2 ^ (e - 1) in
    let q' := if (half <? r) || ((r =? half) && Z.odd q) then q + 1 else q in
    Z.sgn z * (q' * 2 ^ e).

(** [math.Min] on finite values that are not NaN. *)
Definition math_Min (x y : Z) : Z := Z.min x y.

(** [int(f)] for an integral float64 [f] in [-2^63, 2^63]; at [2^63] the
    conversion is implementation-defined and amd64 yields [-2^63], which
    is what the wrap-around gives. *)
Definition int_of_float64 (f : Z) : Z := wrap_int64 f.

(** ** The persistent descriptor *)

(** [proto.Peer]. *)
Record Peer : Type := mkPeer { ID : Z; Addr : string }.

Record DataPartitionMetadata : Type := mkMeta {
  VolumeID : string;
  PartitionID : Z;
  PartitionSize : Z;
  CreateTime : string;
  Peers : list Peer
}.

(** [sortedPeers.Less] on two elements. *)
Definition Less (p q : Peer) : bool := ID p <? ID q.

(** ** Run-time records *)

(** A channel on which nothing is ever sent ([stopC]): it is [nil], open,
    or closed. *)
Inductive chan : Type := chan_nil | chan_open | chan_closed.

(** The built-in [close]: closing a nil channel or a closed channel
    panics. *)
Definition close (c : chan) : outcome chan :=
  match c with
  | chan_open => Returns chan_closed
  | chan_closed => Panics "close of closed channel"
  | chan_nil => Panics "close of nil channel"
  end.

(** The fields of [Disk] that the partition reads. *)
Record Disk : Type := mkDisk { Path : string; Status : Z }.

(** The fields of [dataPartitionCfg] that this file reads. *)
Record dataPartitionCfg : Type := mkCfg {
  VolName : string;
  ClusterID : string;
  cfgPartitionID : Z;
  cfgPartitionSize : Z;
  cfgPeers : list Peer;
  NodeID : Z
}.

(** [os.FileInfo] of a directory entry. *)
Record FileInfo : Type := mkFileInfo { Name : string; Size : Z }.

(** [syscall.Stat_t], the field read here. *)
Record Stat_t : Type := mkStat { Blocks : Z }.

(** What the operating system answers during one call: [syscall.Stat] of
    a path and [ioutil.ReadDir] of a directory. *)
Record FileSystem : Type := mkFS {
  syscall_Stat : string -> Stat_t + error;
  ioutil_ReadDir : string -> list FileInfo + error
}.

(** [storage.ExtentInfo], the fields read or written here. *)
Record ExtentInfo : Type := mkExtentInfo {
  FileID : Z;
  Inode : Z;
  ExtSize : Z;
  Source : string
}.

Record DataPartitionRepairTask : Type := mkTask {
  ExtentsToBeCreated : list ExtentInfo;
  ExtentsToBeRepaired : list ExtentInfo
}.

(** The constructor and the methods of [*storage.ExtentStore] called from
    this file. *)
Class ExtentStoreAPI (Store : Type) : Type := {
  NewExtentStore : string -> Z -> Z -> Store + error;
  HasExtent : Store -> Z -> bool;
  Create : Store -> Z -> Z -> Store * option error;
  GetExtentCount : Store -> Z;
  Close : Store -> Store
}.

(** Modelled from the spec: [DiskSectorSize] is declared outside this
    file; the capacity accountant bills [allocated_blocks * 512]. *)
Definition DiskSectorSize : Z := 512.

Definition DataPartitionPrefix : string := "datapartition".
Definition DataPartitionMetadataFileName : string := "META".
Definition TempMetadataFileName : string := ".meta".
Definition TimeLayout : string := "2006-01-02 15:04:05".

(** The consensus partition handle as far as [Stop] is concerned. *)
Inductive RaftState : Type := raft_absent | raft_running | raft_stopped.

(** [DataPartition], the fields that the functions below read or write. *)
Record DataPartition (Store : Type) : Type := mkDP {
  clusterID : string;
  volumeID : string;
  partitionID : Z;
  partitionStatus : Z;
  partitionSize : Z;
  replicas : list string;
  disk : Disk;
  isLeader : bool;
  path : string;
  used : Z;
  extentStore : Store;
  raftPartition : RaftState;
  config : dataPartitionCfg;
  stopC : chan;
  intervalToUpdateReplicas : Z;
  shouldRepairAllTinyExtents : bool;
  intervalToUpdatePartitionSize : Z
}.
Arguments mkDP {Store}.
Arguments clusterID {Store}.
Arguments volumeID {Store}.
Arguments partitionID {Store}.
Arguments partitionStatus {Store}.
Arguments partitionSize {Store}.
Arguments replicas {Store}.
Arguments disk {Store}.
Arguments isLeader {Store}.
Arguments path {Store}.
Arguments used {Store}.
Arguments extentStore {Store}.
Arguments raftPartition {Store}.
Arguments config {Store}.
Arguments stopC {Store}.
Arguments intervalToUpdateReplicas {Store}.
Arguments shouldRepairAllTinyExtents {Store}.
Arguments intervalToUpdatePartitionSize {Store}.

Module Upd.
Section Setters.
Context {Store : Type}.
Implicit Type dp : DataPartition Store.

Definition usage dp (u t : Z) : DataPartition Store :=
  mkDP (clusterID dp) (volumeID dp) (partitionID dp) (partitionStatus dp)
    (partitionSize dp) (replicas dp) (disk dp) (isLeader dp) (path dp) u
    (extentStore dp) (raftPartition dp) (config dp) (stopC dp)
    (intervalToUpdateReplicas dp) (shouldRepairAllTinyExtents dp) t.

Definition status dp (s : Z) : DataPartition Store :=
  mkDP (clusterID dp) (volumeID dp) (partitionID dp) s
    (partitionSize dp) (replicas dp) (disk dp) (isLeader dp) (path dp) (used dp)
    (extentStore dp) (raftPartition dp) (config dp) (stopC dp)
    (intervalToUpdateReplicas dp) (shouldRepairAllTinyExtents dp)
    (intervalToUpdatePartitionSize dp).

Definition leader dp (b : bool) : DataPartition Store :=
  mkDP (clusterID dp) (volumeID dp) (partitionID dp) (partitionStatus dp)
    (partitionSize dp) (replicas dp) (disk dp) b (path dp) (used dp)
    (extentStore dp) (raftPartition dp) (config dp) (stopC dp)
    (intervalToUpdateReplicas dp) (shouldRepairAllTinyExtents dp)
    (intervalToUpdatePartitionSize dp).

Definition refreshed dp (b : bool) (r : list string) (t : Z) : DataPartition Store :=
  mkDP (clusterID dp) (volumeID dp) (partitionID dp) (partitionStatus dp)
    (partitionSize dp) r (disk dp) b (path dp) (used dp)
    (extentStore dp) (raftPartition dp) (config dp) (stopC dp)
    t (shouldRepairAllTinyExtents dp) (intervalToUpdatePartitionSize dp).

Definition stopped dp (c : chan) (s : Store) (r : RaftState) : DataPartition Store :=
  mkDP (clusterID dp) (volumeID dp) (partitionID dp) (partitionStatus dp)
    (partitionSize dp) (replicas dp) (disk dp) (isLeader dp) (path dp) (used dp)
    s r (config dp) c
    (intervalToUpdateReplicas dp) (shouldRepairAllTinyExtents dp)
    (intervalToUpdatePartitionSize dp).

Definition peers dp (ps : list Peer) : DataPartition Store :=
  let c := config dp in
  mkDP (clusterID dp) (volumeID dp) (partitionID dp) (partitionStatus dp)
    (partitionSize dp) (replicas dp) (disk dp) (isLeader dp) (path dp) (used dp)
    (extentStore dp) (raftPartition dp)
    (mkCfg (VolName c) (ClusterID c) (cfgPartitionID c) (cfgPartitionSize c) ps (NodeID c))
    (stopC dp)
    (intervalToUpdateReplicas dp) (shouldRepairAllTinyExtents dp)
    (intervalToUpdatePartitionSize dp).
End Setters.
End Upd.

(** ** Wall-clock time and package path *)

(** A [time.Time] broken down in the local zone, as [Format] reads it. *)
Record Time : Type := mkTime {
  year : N; month : N; day : N; hour : N; minute : N; second : N
}.

Definition pad2 (n : N) : string :=
  if (n <? 10)%N then "0" +:+ pretty n else pretty n.

Definition pad4 (n : N) : string :=
  if (n <? 10)%N then "000" +:+ pretty n
  else if (n <? 100)%N then "00" +:+ pretty n
  else if (n <? 1000)%N then "0" +:+ pretty n
  else pretty n.

(** [t.Format(TimeLayout)] for the layout ["2006-01-02 15:04:05"]. *)
Definition Format_TimeLayout (t : Time) : string :=
  pad4 (year t) +:+ "-" +:+ pad2 (month t) +:+ "-" +:+ pad2 (day t) +:+ " "
  +:+ pad2 (hour t) +:+ ":" +:+ pad2 (minute t) +:+ ":" +:+ pad2 (second t).

(** [path.Join(dir, name)] for a clean, non-empty [dir] other than the
    root and a plain file name. *)
Definition path_Join (dir name : string) : string := dir +:+ "/" +:+ name.

(** ** Files on disk *)

(** What one call of [PersistMetadata] meets at its system calls:
    [open_err] is the error of [os.OpenFile], [write_err] the error of
    [Write] together with the count of bytes that did reach the file,
    [rename_err] the error of [os.Rename]; [remove_fails] says that the
    deferred [os.Remove] leaves the file in place. *)
Record PersistIO : Type := mkPersistIO {
  open_err : option error;
  write_err : option (nat * error);
  rename_err : option error;
  remove_fails : bool
}.

Definition no_faults : PersistIO := mkPersistIO None None None false.

(** [os.OpenFile(name, os.O_CREATE|os.O_RDWR, 0666)]: an absent file is
    created empty, a present file keeps its content (no [O_TRUNC]). *)
Definition OpenFile_CREATE_RDWR (files : gmap string string) (name : string)
  : gmap string string :=
  match files !! name with
  | Some _ => files
  | None => <[name := EmptyString]> files
  end.

(** [f.Write(b)] on a handle whose offset is 0: [b] replaces the first
    [len(b)] bytes and whatever the file held beyond them stays. *)
Definition write_at_start (old b : string) : string :=
  b +:+ String.substring (String.length b)
          (String.length old - String.length b) old.

Definition take_bytes (n : nat) (b : string) : string := String.substring 0 n b.

(** [os.Rename(src, dst)] of an existing [src]. *)
Definition Rename (files : gmap string string) (src dst : string)
  : gmap string string :=
  match files !! src with
  | Some c => <[dst := c]> (delete src files)
  | None => files
  end.

(** ** What the package takes from outside this file *)

Class Externals : Type := {
  (** package strings *)
  TrimSpace : string -> string;
  (** package sort, at the type [sortedPeers] *)
  sort_Sort : list Peer -> list Peer;
  (** package encoding/json: [Marshal] of the descriptor; [Unmarshal]
      into the pointer [response] of type [*master.DataPartition], read
      at its field [Hosts]: [inl None] is the pointer set to [nil] (the
      JSON text [null]) *)
  json_Marshal : DataPartitionMetadata -> string;
  json_Unmarshal_Hosts : string -> option (list string) + error;
  (** package storage *)
  RegexpExtentFile_MatchString : string -> bool;
  IsTinyExtent : Z -> bool;
  (** constants of package datanode declared outside this file *)
  MaxActiveExtents : Z;
  IntervalToUpdatePartitionSize : Z;
  IntervalToUpdateReplica : Z;
  NumOfFilesToRecoverInParallel : Z;
  (** package proto *)
  ReadOnly : Z;
  ReadWrite : Z;
  Unavailable : Z;
  (** the package-level variable [LocalIP] *)
  LocalIP : string
}.

(** What [sort.Sort] guarantees for [sortedPeers]: a rearrangement in
    which no element is [Less] than one before it. *)
Class SortSorts `{Externals} : Prop := {
  sort_Sort_perm : forall l, Permutation (sort_Sort l) l;
  sort_Sort_sorted : forall l, StronglySorted (fun p q => ID p <= ID q) (sort_Sort l)
}.

(** ** The partition code *)

Section DataNode.
Context `{Ext : Externals} {Store : Type} `{API : ExtentStoreAPI Store}.
Implicit Type dp : DataPartition Store.

(** *** Validate *)

Definition Validate (md : DataPartitionMetadata)
  : DataPartitionMetadata * option error :=
  let md :=
    mkMeta (TrimSpace (VolumeID md)) (PartitionID md) (PartitionSize md)
      (CreateTime md) (Peers md) in
  if (Z.of_nat (String.length (VolumeID md)) =? 0)
     || (PartitionID md =? 0) || (PartitionSize md =? 0)
  then (md, Some (NewError "illegal data partition metadata"))
  else (md, None).

(** *** Creation *)

(** The goroutines started here and in [CreateDataPartition], and the
    registration with the disk, act outside the partition record. *)
Definition newDataPartition (dpCfg : dataPartitionCfg) (d : Disk)
  : DataPartition Store + error :=
  let partitionID := cfgPartitionID dpCfg in
  let dataPath :=
    path_Join (Path d)
      (DataPartitionPrefix +:+ "_" +:+ pretty partitionID +:+ "_"
         +:+ pretty (cfgPartitionSize dpCfg)) in
  match NewExtentStore dataPath (cfgPartitionID dpCfg) (cfgPartitionSize dpCfg) with
  | inr err => inr err
  | inl store =>
      inl {| clusterID := ClusterID dpCfg;
             volumeID := VolName dpCfg;
             partitionID := partitionID;
             partitionStatus := ReadWrite;
             partitionSize := cfgPartitionSize dpCfg;
             replicas := [];
             disk := d;
             isLeader := false;
             path := dataPath;
             used := 0;
             extentStore := store;
             raftPartition := raft_absent;
             config := dpCfg;
             stopC := chan_open;
             intervalToUpdateReplicas := 0;
             shouldRepairAllTinyExtents := true;
             intervalToUpdatePartitionSize := 0 |}
  end.

(** *** Stop *)

(** Modelled from the spec: [stopRaft] is declared outside this file; it
    stops the consensus partition when there is one. *)
Definition stopRaft (r : RaftState) : RaftState :=
  match r with
  | raft_absent => raft_absent
  | _ => raft_stopped
  end.

Definition Stop dp : outcome (DataPartition Store) :=
  let closed :=
    match stopC dp with
    | chan_nil => Returns chan_nil
    | c => close c
    end in
  match closed with
  | Panics msg => Panics msg
  | Returns c =>
      Returns (Upd.stopped dp c (Close (extentStore dp)) (stopRaft (raftPartition dp)))
  end.

(** *** PersistMetadata *)

(** The descriptor that [PersistMetadata] builds once the peers are
    sorted; [now] is the reading of [time.Now()]. *)
Definition metadataOf (now : Time) (cfg : dataPartitionCfg) : DataPartitionMetadata :=
  {| VolumeID := VolName cfg;
     PartitionID := cfgPartitionID cfg;
     PartitionSize := cfgPartitionSize cfg;
     Peers := cfgPeers cfg;
     CreateTime := Format_TimeLayout now |}.

(** The deferred function: [Sync], [Close], [os.Remove(fileName)]. *)
Definition persist_cleanup (io : PersistIO) (fileName : string)
    (files : gmap string string) : gmap string string :=
  if remove_fails io then files else delete fileName files.

Definition PersistMetadata (now : Time) (io : PersistIO)
    (files : gmap string string) dp
  : gmap string string * DataPartition Store * option error :=
  let fileName := path_Join (path dp) TempMetadataFileName in
  match open_err io with
  | Some err => (files, dp, Some err)
  | None =>
      let files := OpenFile_CREATE_RDWR files fileName in
      let dp := Upd.peers dp (sort_Sort (cfgPeers (config dp))) in
      let md := metadataOf now (config dp) in
      let metaData := json_Marshal md in
      let old := default EmptyString (files !! fileName) in
      match write_err io with
      | Some (n, err) =>
          let files := <[fileName := write_at_start old (take_bytes n metaData)]> files in
          (persist_cleanup io fileName files, dp, Some err)
      | None =>
          let files := <[fileName := write_at_start old metaData]> files in
          match rename_err io with
          | Some err => (persist_cleanup io fileName files, dp, Some err)
          | None =>
              let files :=
                Rename files fileName (path_Join (path dp) DataPartitionMetadataFileName) in
              (persist_cleanup io fileName files, dp, None)
          end
      end
  end.

Definition CreateDataPartition (now : Time) (io : PersistIO)
    (files : gmap string string) (dpCfg : dataPartitionCfg) (d : Disk)
  : gmap string string * option (DataPartition Store) * option error :=
  match newDataPartition dpCfg d with
  | inr err => (files, None, Some err)
  | inl dp =>
      let '(files, dp, err) := PersistMetadata now io files dp in
      (files, Some dp, err)
  end.

(** *** Status machine and capacity accounting *)

Definition parseFileName (filename : string) : Z * bool :=
  if negb (RegexpExtentFile_MatchString filename) then (0, false)
  else
    match ParseUint filename with
    | (extentID, Some _) => (extentID, false)
    | (extentID, None) => (extentID, true)
    end.

Definition actualSize (fsys : FileSystem) (dir : string) (finfo : FileInfo) : Z :=
  let name := Name finfo in
  let '(extentID, isExtent) := parseFileName name in
  if negb isExtent then Size finfo
  else if IsTinyExtent extentID then
    match syscall_Stat fsys (dir +:+ "/" +:+ Name finfo) with
    | inr _ => Size finfo
    | inl stat => wrap_int64 (Blocks stat * DiskSectorSize)
    end
  else Size finfo.

(** The loop [for _, file := range files { used += dp.actualSize(...) }]
    from the running total [acc]. *)
Definition sumSizes (fsys : FileSystem) (dir : string) (files : list FileInfo)
    (acc : Z) : Z :=
  fold_left (fun used file => wrap_int64 (used + actualSize fsys dir file)) files acc.

(** [now_entry] and [now_exit] are the two readings of
    [time.Now().Unix()]. *)
Definition computeUsage (now_entry now_exit : Z) (fsys : FileSystem) dp
  : DataPartition Store :=
  if wrap_int64 (now_entry - intervalToUpdatePartitionSize dp)
       <? IntervalToUpdatePartitionSize
  then dp
  else
    match ioutil_ReadDir fsys (path dp) with
    | inr _ => dp
    | inl files => Upd.usage dp (sumSizes fsys (path dp) files 0) now_exit
    end.

Definition statusUpdate (now_entry now_exit : Z) (fsys : FileSystem) dp
  : DataPartition Store :=
  let status := ReadWrite in
  let dp := computeUsage now_entry now_exit fsys dp in
  let status := if partitionSize dp <=? used dp then ReadOnly else status in
  let status :=
    if MaxActiveExtents <=? GetExtentCount (extentStore dp) then ReadOnly
    else status in
  Upd.status dp
    (int_of_float64
       (math_Min (float64_of_int status) (float64_of_int (Status (disk dp))))).

(** *** Replica refresh *)

Fixpoint compareReplicas (v1 v2 : list string) : bool :=
  match v1, v2 with
  | [], [] => true
  | a :: v1, b :: v2 => if String.eqb a b then compareReplicas v1 v2 else false
  | _, _ => false
  end.

(** [request] is [MasterHelper.Request(GET, proto.AdminGetDataPartition,
    params, nil)] as a function of the parameter [id]. A [nil] slice and
    an empty one are both the empty list. When the decoder leaves
    [response] nil, reading [response.Hosts] faults. *)
Definition fetchReplicasFromMaster (request : string -> string + error) dp
  : outcome (bool * list string * option error) :=
  match request (pretty (wrap_int64 (partitionID dp))) with
  | inr err => Returns (false, [], Some err)
  | inl bufs =>
      match json_Unmarshal_Hosts bufs with
      | inr err => Returns (false, [], Some err)
      | inl None => Panics "invalid memory address or nil pointer dereference"
      | inl (Some hosts) =>
          let replicas := fold_left (fun acc host => (acc ++ [host])%list) hosts [] in
          let isLeader :=
            match hosts with
            | [] => false
            | host0 :: _ =>
                match Split_byte ":" host0 with
                | [h; _] => String.eqb (TrimSpace h) LocalIP
                | _ => false
                end
            end in
          Returns (isLeader, replicas, None)
      end
  end.

Definition updateReplicas (now_entry now_exit : Z)
    (request : string -> string + error) dp
  : outcome (DataPartition Store * option error) :=
  if wrap_int64 (now_entry - intervalToUpdateReplicas dp) <=? IntervalToUpdateReplica
  then Returns (dp, None)
  else
    let dp := Upd.leader dp false in
    match fetchReplicasFromMaster request dp with
    | Panics msg => Panics msg
    | Returns (_, _, Some err) => Returns (dp, Some err)
    | Returns (isLeader, replicas, None) =>
        Returns (Upd.refreshed dp isLeader replicas now_exit, None)
    end.

(** *** Repair: the extents to create *)

(** The descriptor appended to [ExtentsToBeRepaired]: [Source], [FileID]
    and [Size] of the entry, every other field zero. *)
Definition repairInfo (extentInfo : ExtentInfo) : ExtentInfo :=
  {| FileID := FileID extentInfo; Inode := 0;
     ExtSize := ExtSize extentInfo; Source := Source extentInfo |}.

(** One iteration of the first loop of [DoExtentStoreRepair]. *)
Definition createOne (st : Store * list ExtentInfo) (extentInfo : ExtentInfo)
  : Store * list ExtentInfo :=
  let '(store, toBeRepaired) := st in
  if IsTinyExtent (FileID extentInfo) then (store, toBeRepaired)
  else if HasExtent store (wrap_uint64 (FileID extentInfo)) then
    (store, (toBeRepaired ++ [repairInfo extentInfo])%list)
  else
    match Create store (wrap_uint64 (FileID extentInfo)) (Inode extentInfo) with
    | (store, Some _) => (store, toBeRepaired)
    | (store, None) => (store, (toBeRepaired ++ [repairInfo extentInfo])%list)
    end.

(** The first loop of [DoExtentStoreRepair]: the store and the task when
    the loop is left. *)
Definition createExtents (store : Store) (repairTask : DataPartitionRepairTask)
  : Store * DataPartitionRepairTask :=
  let '(store, toBeRepaired) :=
    fold_left createOne (ExtentsToBeCreated repairTask)
      (store, ExtentsToBeRepaired repairTask) in
  (store, mkTask (ExtentsToBeCreated repairTask) toBeRepaired).

(** Where the descriptor of a partition lives. *)
Definition metaFile dp : string :=
  path_Join (path dp) DataPartitionMetadataFileName.

Definition tempFile dp : string :=
  path_Join (path dp) TempMetadataFileName.

(** The claim that the creation time is written once: whenever a
    partition was created and [PersistMetadata] is called on it later,
    the descriptor in [META] after the later call has the [CreateTime] of
    the descriptor that the creation left there. *)
Definition create_time_kept : Prop :=
  forall (now0 now1 : Time) (io0 io1 : PersistIO) (files : gmap string string)
         (dpCfg : dataPartitionCfg) (d : Disk)
         (files0 files1 : gmap string string) dp0 dp1
         (md0 md1 : DataPartitionMetadata),
    CreateDataPartition now0 io0 files dpCfg d = (files0, Some dp0, None) ->
    files0 !! metaFile dp0 = Some (json_Marshal md0) ->
    PersistMetadata now1 io1 files0 dp0 = (files1, dp1, None) ->
    files1 !! metaFile dp0 = Some (json_Marshal md1) ->
    CreateTime md1 = CreateTime md0.

(** *** Repair: the dispatch loop as a transition system

    The second loop of [DoExtentStoreRepair] starts one goroutine per
    extent and waits on a [sync.WaitGroup]. A state holds the entries not
    yet visited, [recoverIndex], the counter of the wait group (the
    workers in flight), the extent store and the place the loop is at.
    The store may change under the loop, since other goroutines write to
    it. *)

Inductive Loc : Type := AtLoop | AtBarrier | AtFinalWait | Returned.

Record RepairState : Type := mkRS {
  pending : list ExtentInfo;
  recoverIndex : Z;
  inflight : Z;
  rstore : Store;
  loc : Loc
}.

(** Modelled from the spec: [doStreamExtentFixRepair] is declared outside
    this file; a dispatched worker runs on its own and signals the wait
    group once, when it is done ([step_worker_done]). *)
Inductive repair_step : RepairState -> RepairState -> Prop :=
| step_skip e rest ri n s :
    HasExtent s (wrap_uint64 (FileID e)) = false ->
    repair_step (mkRS (e :: rest) ri n s AtLoop) (mkRS rest ri n s AtLoop)
| step_dispatch e rest ri n s :
    HasExtent s (wrap_uint64 (FileID e)) = true ->
    repair_step (mkRS (e :: rest) ri n s AtLoop)
      (mkRS rest (wrap_int64 (ri + 1)) (n + 1) s
         (if Z.rem (wrap_int64 (ri + 1)) NumOfFilesToRecoverInParallel =? 0
          then AtBarrier else AtLoop))
| step_barrier rest ri s :
    repair_step (mkRS rest ri 0 s AtBarrier) (mkRS rest ri 0 s AtLoop)
| step_loop_end ri n s :
    repair_step (mkRS [] ri n s AtLoop) (mkRS [] ri n s AtFinalWait)
| step_return ri s :
    repair_step (mkRS [] ri 0 s AtFinalWait) (mkRS [] ri 0 s Returned)
| step_worker_done rest ri n s l :
    0 < n ->
    repair_step (mkRS rest ri n s l) (mkRS rest ri (n - 1) s l)
| step_store rest ri n s s' l :
    repair_step (mkRS rest ri n s l) (mkRS rest ri n s' l).

(** The state in which the second loop is entered. *)
Definition repair_init (store : Store) (repairTask : DataPartitionRepairTask)
  : RepairState :=
  mkRS (ExtentsToBeRepaired repairTask) 0 0 store AtLoop.

Definition repair_reachable (s0 s : RepairState) : Prop := rtc repair_step s0 s.

(** [DoExtentStoreRepair] up to the entry of its second loop: the first
    loop runs, then the dispatch loop starts on the augmented task and
    goes on by [repair_step]. *)
Definition DoExtentStoreRepair (store : Store) (repairTask : DataPartitionRepairTask)
  : RepairState :=
  let '(store, repairTask) := createExtents store repairTask in
  repair_init store repairTask.

(** What holds of every state of the dispatch loop: [recoverIndex] counts
    the dispatches and cannot overflow, and the workers in flight are at
    most those dispatched since the last barrier. *)
Definition repair_inv (s : RepairState) : Prop :=
  0 <= recoverIndex s
  /\ recoverIndex s + Z.of_nat (length (pending s)) <= maxInt64
  /\ 0 <= inflight s
  /\ match loc s with
     | AtLoop | AtFinalWait =>
         inflight s <= recoverIndex s mod NumOfFilesToRecoverInParallel
     | AtBarrier => inflight s <= NumOfFilesToRecoverInParallel
     | Returned => inflight s = 0
     end.

(** *** The vocabulary of the specification *)

Inductive PartitionStatus : Type := StUnavailable | StReadOnly | StReadWrite.

(** The order [Unavailable < ReadOnly < ReadWrite]. *)
Definition status_rank (s : PartitionStatus) : Z :=
  match s with StUnavailable => 0 | StReadOnly => 1 | StReadWrite => 2 end.

Definition status_min (a b : PartitionStatus) : PartitionStatus :=
  if status_rank a <=? status_rank b then a else b.

Definition status_code (s : PartitionStatus) : Z :=
  match s with
  | StUnavailable => Unavailable
  | StReadOnly => ReadOnly
  | StReadWrite => ReadWrite
  end.

(** [local] of the status rule: [ReadOnly] iff [used >= size] or
    [extent_count >= MaxActiveExtents]. *)
Definition local_status (used_bytes size extent_count : Z) : PartitionStatus :=
  if (size <=? used_bytes) || (MaxActiveExtents <=? extent_count)
  then StReadOnly else StReadWrite.

(** A file of the partition directory is a tiny extent file when its
    name matches the extent-file regexp, parses as a 64-bit extent id, and
    the id is in the tiny range. *)
Definition tiny_extent_file (name : string) : bool :=
  RegexpExtentFile_MatchString name
  && match ParseUint name with
     | (extentID, None) => IsTinyExtent extentID
     | (_, Some _) => false
     end.

(** The host portion of an address [host:port]: the text before the
    colon, blanks around it removed. An address that is not of that shape
    has none. *)
Definition hostPortion (addr : string) : option string :=
  match Split_byte ":" addr with
  | [h; _] => Some (TrimSpace h)
  | _ => None
  end.

(** The four rules of the specification for the entries of
    [extents_to_be_created], read as a relation between the store and the
    repair list before and after. *)
Inductive augments
  : Store -> list ExtentInfo -> list ExtentInfo -> Store -> list ExtentInfo -> Prop :=
| aug_done s r : augments s [] r s r
| aug_tiny s e es r s' r' :
    IsTinyExtent (FileID e) = true ->
    augments s es r s' r' ->
    augments s (e :: es) r s' r'
| aug_exists s e es r s' r' :
    IsTinyExtent (FileID e) = false ->
    HasExtent s (wrap_uint64 (FileID e)) = true ->
    augments s es (r ++ [repairInfo e])%list s' r' ->
    augments s (e :: es) r s' r'
| aug_created s s1 e es r s' r' :
    IsTinyExtent (FileID e) = false ->
    HasExtent s (wrap_uint64 (FileID e)) = false ->
    Create s (wrap_uint64 (FileID e)) (Inode e) = (s1, None) ->
    augments s1 es (r ++ [repairInfo e])%list s' r' ->
    augments s (e :: es) r s' r'
| aug_create_failed s s1 err e es r s' r' :
    IsTinyExtent (FileID e) = false ->
    HasExtent s (wrap_uint64 (FileID e)) = false ->
    Create s (wrap_uint64 (FileID e)) (Inode e) = (s1, Some err) ->
    augments s1 es r s' r' ->
    augments s (e :: es) r s' r'.

End DataNode.

Arguments RepairState : clear implicits.

(** ** A concrete environment

    Stand-ins for what lies outside the file, used to run the code on
    concrete inputs. *)

Module Sample.

(** [strings.TrimSpace] on a string of ASCII bytes: tab, line feed,
    vertical tab, form feed, carriage return and space are removed at
    both ends. *)
Definition is_ascii_space (c : ascii) : bool :=
  let n := Z.of_nat (nat_of_ascii c) in ((9 <=? n) && (n <=? 13)) || (n =? 32).

Fixpoint trim_left (s : string) : string :=
  match s with
  | EmptyString => EmptyString
  | String c rest => if is_ascii_space c then trim_left rest else s
  end.

Fixpoint trim_right (s : string) : string :=
  match s with
  | EmptyString => EmptyString
  | String c rest =>
      match trim_right rest with
      | EmptyString => if is_ascii_space c then EmptyString else String c EmptyString
      | rest' => String c rest'
      end
  end.

Definition TrimSpace_ascii (s : string) : string := trim_right (trim_left s).

(** Insertion sort by [Less], standing for [sort.Sort]. *)
Fixpoint insert_peer (p : Peer) (l : list Peer) : list Peer :=
  match l with
  | [] => [p]
  | q :: rest => if Less q p then q :: insert_peer p rest else p :: q :: rest
  end.

Fixpoint insertion_sort (l : list Peer) : list Peer :=
  match l with
  | [] => []
  | p :: rest => insert_peer p (insertion_sort rest)
  end.

(** The JSON text of a descriptor whose strings need no escaping. *)
Definition dq : string := String (ascii_of_nat 34) EmptyString.

Definition json_string (s : string) : string := dq +:+ s +:+ dq.

Definition json_peer (p : Peer) : string :=
  "{" +:+ json_string "id" +:+ ":" +:+ pretty (ID p) +:+ ","
  +:+ json_string "addr" +:+ ":" +:+ json_string (Addr p) +:+ "}".

Fixpoint json_peers (l : list Peer) : string :=
  match l with
  | [] => EmptyString
  | [p] => json_peer p
  | p :: rest => json_peer p +:+ "," +:+ json_peers rest
  end.

Definition marshal_plain (md : DataPartitionMetadata) : string :=
  "{" +:+ json_string "VolumeID" +:+ ":" +:+ json_string (VolumeID md) +:+ ","
  +:+ json_string "PartitionID" +:+ ":" +:+ pretty (PartitionID md) +:+ ","
  +:+ json_string "PartitionSize" +:+ ":" +:+ pretty (PartitionSize md) +:+ ","
  +:+ json_string "CreateTime" +:+ ":" +:+ json_string (CreateTime md) +:+ ","
  +:+ json_string "Peers" +:+ ":[" +:+ json_peers (Peers md) +:+ "]}".

(** A reply body that lists the hosts separated by commas; the empty
    body does not decode and the body [null] resets the response. *)
Definition hosts_of_reply (bufs : string) : option (list string) + error :=
  match bufs with
  | EmptyString => inr (NewError "unexpected end of JSON input")
  | _ => if String.eqb bufs "null" then inl None
         else inl (Some (Split_byte "," bufs))
  end.

(** File names made of decimal digits, at least one. *)
Fixpoint all_digits (s : string) : bool :=
  match s with
  | EmptyString => true
  | String c rest => is_digit c && all_digits rest
  end.

Definition digits_name (s : string) : bool :=
  match s with
  | EmptyString => false
  | _ => all_digits s
  end.

Definition ext : Externals := {|
  TrimSpace := TrimSpace_ascii;
  sort_Sort := insertion_sort;
  json_Marshal := marshal_plain;
  json_Unmarshal_Hosts := hosts_of_reply;
  RegexpExtentFile_MatchString := digits_name;
  IsTinyExtent := fun id => (1 <=? id) && (id <=? 64);
  MaxActiveExtents := 20000;
  IntervalToUpdatePartitionSize := 60;
  IntervalToUpdateReplica := 600;
  NumOfFilesToRecoverInParallel := 7;
  ReadOnly := 1;
  ReadWrite := 2;
  Unavailable := -1;
  LocalIP := "10.0.0.1"
|}.

(** An extent store in memory: the extents it holds, the ids whose
    creation fails, and whether it was closed. *)
Record MemStore : Type := mkMem {
  held : list Z;
  refused : list Z;
  closed : bool
}.

Definition mem_has (s : MemStore) (id : Z) : bool := existsb (Z.eqb id) (held s).

Definition mem_create (s : MemStore) (id inode : Z) : MemStore * option error :=
  if existsb (Z.eqb id) (refused s) then (s, Some (NewError "create failed"))
  else (mkMem (held s ++ [id]) (refused s) (closed s), None).

Definition api : ExtentStoreAPI MemStore := {|
  NewExtentStore := fun _ _ _ => inl (mkMem [] [] false);
  HasExtent := mem_has;
  Create := mem_create;
  GetExtentCount := fun s => Z.of_nat (length (held s));
  Close := fun s => mkMem (held s) (refused s) true
|}.

End Sample.

(** ** Concrete inputs *)

Module Scenario.
Import Sample.

(** The partition of the create-and-stop scenario: volume ["v1"], id 7,
    1 GiB, peers given in the order 3, 1, 2. *)
Definition cfg : dataPartitionCfg :=
  mkCfg "v1" "cluster" 7 1073741824
    [mkPeer 3 "h3:9000"; mkPeer 1 "h1:9000"; mkPeer 2 "h2:9000"] 1.

Definition dsk : Disk := mkDisk "/data" 2.

Definition created_at : Time := mkTime 2018 8 1 10 0 0.
Definition persisted_at : Time := mkTime 2018 8 2 9 30 0.

Definition fresh : DataPartition MemStore :=
  {| clusterID := "cluster"; volumeID := "v1"; partitionID := 7;
     partitionStatus := 2; partitionSize := 1073741824; replicas := [];
     disk := dsk; isLeader := false;
     path := "/data/datapartition_7_1073741824"; used := 0;
     extentStore := mkMem [] [] false; raftPartition := raft_absent;
     config := cfg; stopC := chan_open; intervalToUpdateReplicas := 0;
     shouldRepairAllTinyExtents := true; intervalToUpdatePartitionSize := 0 |}.

(** The partition once its peers are sorted. *)
Definition settled : DataPartition MemStore :=
  Upd.peers fresh [mkPeer 1 "h1:9000"; mkPeer 2 "h2:9000"; mkPeer 3 "h3:9000"].

(** The descriptor written at [now]. *)
Definition descriptor (now : Time) : DataPartitionMetadata :=
  metadataOf now (config settled).

(** A temp file left behind by a call that was cut short, longer than
    any descriptor of this partition. *)
Definition leftover : string :=
  marshal_plain (descriptor created_at) +:+ " trailing bytes of an older file".

Definition stale_files : gmap string string :=
  {[ "/data/datapartition_7_1073741824/.meta" := leftover ]}.

(** The directory of the capacity scenario: a plain file of 100 bytes, a
    normal extent 2048 of 10 MiB, a tiny extent 3 of 128 MiB that holds
    8192 blocks; the tiny extent 4 cannot be stat'ed. *)
Definition dir_files : list FileInfo :=
  [mkFileInfo "META" 100; mkFileInfo "2048" 10485760; mkFileInfo "3" 134217728].

Definition fsys : FileSystem :=
  {| syscall_Stat := fun p =>
       if String.eqb p "/data/datapartition_7_1073741824/3"
       then inl (mkStat 8192)
       else inr (NewError "no such file or directory");
     ioutil_ReadDir := fun _ => inl dir_files |}.

(** The task of the repair scenario: a tiny extent, an extent that the
    store holds, a missing extent, and a missing extent whose creation
    fails. *)
Definition store0 : MemStore := mkMem [2000] [4000] false.

Definition task : DataPartitionRepairTask :=
  mkTask [mkExtentInfo 3 11 100 "h1:9000"; mkExtentInfo 2000 12 200 "h1:9000";
          mkExtentInfo 3000 13 300 "h1:9000"; mkExtentInfo 4000 14 400 "h1:9000"]
         [].

(** The master answers with the local node first. *)
Definition master (id : string) : string + error :=
  if String.eqb id "7" then inl "10.0.0.1:6000,10.0.0.2:6000"
  else inr (NewError "partition not found").

End Scenario.


(** ** The rest of the partition code *)

(** [proto.TinyExtentType] and [proto.NormalExtentType]. *)
Inductive ExtentType : Type := TinyExtentType | NormalExtentType.

(** [math.MaxUint32]. *)
Definition MaxUint32 : Z := 4294967295.

(** The further methods of [*storage.ExtentStore] that the maintenance
    loop calls; [File] is [proto.File]. *)
Class MaintenanceAPI (Store File : Type) : Type := {
  BrokenTinyExtentCnt : Store -> Z;
  MoveAllToBrokenTinyExtentC : Store -> Z -> Store;
  SnapShot : Store -> list File + error;
  (** the constant [MinTinyExtentsToRepair] of package datanode *)
  MinTinyExtentsToRepair : Z
}.

(** [json.Unmarshal] into a [DataPartitionMetadata]. *)
Class MetaDecoder : Type := {
  json_Unmarshal_Meta : string -> DataPartitionMetadata + error
}.

(** What [disk.space] answers to [GetNodeID] and [GetClusterID]. *)
Record SpaceManager : Type := mkSpace { spNodeID : Z; spClusterID : string }.

(** What one call of [LoadDataPartition] meets: the error of
    [ioutil.ReadFile] when the file is there, of [LoadApplyIndex] and of
    [StartRaft]. *)
Record LoadIO : Type := mkLoadIO {
  read_err : option error;
  applyIndex_err : option error;
  startRaft_err : option error
}.

(** One reading of the clock and of the outside world for one main tick
    of the scheduler. *)
Record TickInput : Type := mkTick {
  usage_entry : Z;
  usage_exit : Z;
  replicas_entry : Z;
  replicas_exit : Z;
  tick_fsys : FileSystem;
  tick_master : string -> string + error
}.

Section DataNodeMore.
Context `{Ext : Externals} {Store : Type} `{API : ExtentStoreAPI Store}.
Context {File : Type} `{MAPI : MaintenanceAPI Store File} `{Dec : MetaDecoder}.
Implicit Type dp : DataPartition Store.

(** *** Load *)

(** [ioutil.ReadFile]. *)
Definition ReadFile (io : LoadIO) (files : gmap string string) (name : string)
  : string + error :=
  match files !! name with
  | None => inr (NewError "no such file or directory")
  | Some c =>
      match read_err io with
      | Some err => inr err
      | None => inl c
      end
  end.

(** Modelled from the spec: [StartRaft] is declared outside this file; it
    starts the consensus partition. The error of [LoadApplyIndex] is
    logged and then overwritten by the result of [StartRaft]. *)
Definition LoadDataPartition (io : LoadIO) (space : SpaceManager)
    (files : gmap string string) (partitionDir : string) (d : Disk)
  : option (DataPartition Store) * option error :=
  match ReadFile io files (path_Join partitionDir DataPartitionMetadataFileName) with
  | inr err => (None, Some err)
  | inl metaFileData =>
      match json_Unmarshal_Meta metaFileData with
      | inr err => (None, Some err)
      | inl meta =>
          match Validate meta with
          | (_, Some err) => (None, Some err)
          | (meta, None) =>
              let dpCfg :=
                {| VolName := VolumeID meta;
                   cfgPartitionSize := PartitionSize meta;
                   cfgPartitionID := PartitionID meta;
                   cfgPeers := Peers meta;
                   NodeID := spNodeID space;
                   ClusterID := spClusterID space |} in
              match newDataPartition dpCfg d with
              | inr err => (None, Some err)
              | inl dp =>
                  match startRaft_err io with
                  | Some err => (Some dp, Some err)
                  | None =>
                      (Some (Upd.stopped dp (stopC dp) (extentStore dp) raft_running),
                       None)
                  end
              end
          end
      end
  end.

(** *** Accessors *)

Definition Available dp : Z := wrap_int64 (partitionSize dp - used dp).

(** [leaderTerm] is what [dp.raftPartition.LeaderTerm()] answers. *)
Definition IsRaftLeader (leaderTerm : Z * Z) dp : string * bool :=
  match raftPartition dp with
  | raft_absent => (EmptyString, false)
  | _ =>
      let '(leaderID, _) := leaderTerm in
      if leaderID =? 0 then (EmptyString, false)
      else
        let ok := leaderID =? NodeID (config dp) in
        let fix scan (peers : list Peer) : string * bool :=
          match peers with
          | [] => (EmptyString, ok)
          | peer :: rest =>
              if leaderID =? ID peer then (Addr peer, ok) else scan rest
          end in
        scan (cfgPeers (config dp))
  end.

(** [String]: the name of the partition directory. *)
Definition partitionName dp : string :=
  DataPartitionPrefix +:+ "_" +:+ pretty (partitionID dp) +:+ "_"
  +:+ pretty (partitionSize dp).

(** *** Maintenance *)

Definition ReloadSnapshot dp (snapshot : list File) : list File :=
  match SnapShot (extentStore dp) with
  | inr _ => snapshot
  | inl files => files
  end.

(** The second component is the kind with which [dp.repair] is called,
    if it is called; [repair] is declared outside this file. *)
Definition LaunchRepair (now_entry now_exit : Z)
    (request : string -> string + error) (extentType : ExtentType) dp
  : outcome (DataPartition Store * option ExtentType) :=
  if partitionStatus dp =? Unavailable then Returns (dp, None)
  else
    match updateReplicas now_entry now_exit request dp with
    | Panics msg => Panics msg
    | Returns (dp, Some _) => Returns (dp, None)
    | Returns (dp, None) =>
        if negb (isLeader dp) then Returns (dp, None)
        else
          let store :=
            if BrokenTinyExtentCnt (extentStore dp) =? 0
            then MoveAllToBrokenTinyExtentC (extentStore dp) MinTinyExtentsToRepair
            else extentStore dp in
          Returns (Upd.stopped dp (stopC dp) store (raftPartition dp),
                   Some extentType)
    end.

(** The state of [statusUpdateScheduler]: the local [index], the
    partition and its published snapshot. *)
Record Scheduler : Type := mkSched {
  index : Z;
  part : DataPartition Store;
  snapshot : list File
}.

(** The case [<-ticker.C] of [statusUpdateScheduler]. *)
Definition mainTick (inp : TickInput) (sch : Scheduler)
  : outcome (Scheduler * option ExtentType) :=
  let index := wrap_int64 (index sch + 1) in
  let dp := statusUpdate (usage_entry inp) (usage_exit inp) (tick_fsys inp) (part sch) in
  let index := if MaxUint32 <=? index then 0 else index in
  let extentType :=
    if Z.rem index 2 =? 0 then TinyExtentType else NormalExtentType in
  match LaunchRepair (replicas_entry inp) (replicas_exit inp) (tick_master inp)
          extentType dp with
  | Panics msg => Panics msg
  | Returns (dp, launched) =>
      Returns (mkSched index dp (ReloadSnapshot dp (snapshot sch)), launched)
  end.

(** The main ticks that the scheduler runs one after the other, one
    input per tick. The metrics ticks that the [select] may run in
    between do not touch this state. *)
Fixpoint runTicks (inputs : list TickInput) (sch : Scheduler) : outcome Scheduler :=
  match inputs with
  | [] => Returns sch
  | inp :: rest =>
      match mainTick inp sch with
      | Panics msg => Panics msg
      | Returns (sch, _) => runTicks rest sch
      end
  end.

End DataNodeMore.

Arguments Scheduler : clear implicits.


(** ** More of the concrete environment *)

Module SampleMore.
Import Sample.

(** The store in memory has no queue of broken tiny extents; its
    snapshot lists the ids it holds. *)
Definition maint : MaintenanceAPI MemStore Z := {|
  BrokenTinyExtentCnt := fun _ => 0;
  MoveAllToBrokenTinyExtentC := fun s _ => s;
  SnapShot := fun s => inl (held s);
  MinTinyExtentsToRepair := 10
|}.

(** A decoder that knows the descriptors of the scenario partition and
    the empty object, and refuses every other text. *)
Definition decode_meta (data : string) : DataPartitionMetadata + error :=
  if String.eqb data (marshal_plain (Scenario.descriptor Scenario.created_at))
  then inl (Scenario.descriptor Scenario.created_at)
  else if String.eqb data (marshal_plain (Scenario.descriptor Scenario.persisted_at))
  then inl (Scenario.descriptor Scenario.persisted_at)
  else if String.eqb data "{}"
  then inl (mkMeta EmptyString 0 0 EmptyString [])
  else inr (NewError "invalid character").

Definition decoder : MetaDecoder := {| json_Unmarshal_Meta := decode_meta |}.

Definition space : SpaceManager := mkSpace 1 "cluster".

Definition load_ok : LoadIO := mkLoadIO None None None.

(** The files of the scenario partition once it is created. *)
Definition created_files : gmap string string :=
  {[ "/data/datapartition_7_1073741824/META"
     := marshal_plain (Scenario.descriptor Scenario.created_at) ]}.

(** The scenario partition on another replica: the same peers, given in
    another order. *)
Definition other_replica : DataPartition MemStore :=
  Upd.peers Scenario.fresh
    [mkPeer 2 "h2:9000"; mkPeer 3 "h3:9000"; mkPeer 1 "h1:9000"].

(** One tick of the scheduler, 1000 seconds after the start, with the
    local node first in the answer of the master. *)
Definition tick : TickInput :=
  mkTick 1000 1001 1002 1003 Scenario.fsys Scenario.master.

Definition sched0 : Scheduler MemStore Z := mkSched 0 Scenario.fresh [].

(** A task with nothing missing: a tiny extent and an extent that the
    store holds. *)
Definition task_present : DataPartitionRepairTask :=
  mkTask [mkExtentInfo 3 11 100 "h1:9000"; mkExtentInfo 2000 12 200 "h1:9000"] [].

End SampleMore.


(** * Properties *)

(** ** Machine integers and the float64 detour *)

Lemma wrap_int64_id z : in_int64 z -> wrap_int64 z = z.
Proof.
  unfold in_int64, wrap_int64, minInt64, maxInt64. intros Hz.
  rewrite Z.mod_small by lia. lia.
Qed.

Lemma wrap_int64_range z : in_int64 (wrap_int64 z).
Proof.
  unfold in_int64, wrap_int64, minInt64, maxInt64.
  pose proof (Z.mod_pos_bound (z + 2 ^ 63) (2 ^ 64) ltac:(lia)). lia.
Qed.

Lemma float64_of_int_exact z : Z.abs z <= 2 ^ 53 -> float64_of_int z = z.
Proof.
  intros Hz. unfold float64_of_int. cbv zeta.
  destruct (Z.abs z <? 2 ^ 53) eqn:E; [reflexivity|].
  apply Z.ltb_ge in E. assert (Ha : Z.abs z = 2 ^ 53) by lia.
  rewrite Ha.
  replace (Z.log2 (2 ^ 53) - 52) with 1 by (rewrite Z.log2_pow2; lia).
  change ((2 ^ 53) mod 2 ^ 1) with 0. change (2 ^ (1 - 1)) with 1.
  change (1 <? 0) with false. change (0 =? 1) with false. cbn [orb andb].
  change ((2 ^ 53) / 2 ^ 1 * 2 ^ 1) with (2 ^ 53).
  rewrite <- Ha. rewrite Z.mul_comm. apply Z.abs_sgn.
Qed.

(** On integers that a float64 holds exactly, the detour through
    [float64] and [math.Min] is the minimum of the integers. *)
Lemma float_min_exact x y :
  Z.abs x <= 2 ^ 53 -> Z.abs y <= 2 ^ 53 ->
  int_of_float64 (math_Min (float64_of_int x) (float64_of_int y)) = Z.min x y.
Proof.
  intros Hx Hy. rewrite !float64_of_int_exact by assumption.
  unfold int_of_float64, math_Min. apply wrap_int64_id.
  unfold in_int64, minInt64, maxInt64. lia.
Qed.

(** ** Splitting at a byte *)

Lemma Split_byte_none (sep : ascii) (s : string) :
  has_byte sep s = false -> Split_byte sep s = [s].
Proof.
  induction s as [|c s IH]; cbn; [reflexivity|].
  intros Hs. apply orb_false_iff in Hs. destruct Hs as [Hc Hs].
  rewrite Hc, (IH Hs). reflexivity.
Qed.

Lemma Split_byte_first (sep : ascii) (h t : string) :
  has_byte sep h = false ->
  Split_byte sep (h +:+ String sep t) = h :: Split_byte sep t.
Proof.
  induction h as [|c h IH]; cbn [has_byte].
  - intros _. change (EmptyString +:+ String sep t) with (String sep t).
    cbn [Split_byte]. rewrite Ascii.eqb_refl. reflexivity.
  - intros Hs. apply orb_false_iff in Hs. destruct Hs as [Hc Hs].
    change (String c h +:+ String sep t) with (String c (h +:+ String sep t)).
    cbn [Split_byte]. rewrite Hc, (IH Hs). reflexivity.
Qed.

Lemma fold_left_snoc {A : Type} (l acc : list A) :
  fold_left (fun acc x => (acc ++ [x])%list) l acc = (acc ++ l)%list.
Proof.
  revert acc. induction l as [|x l IH]; intros acc; cbn.
  - symmetry. apply app_nil_r.
  - rewrite IH, <- app_assoc. reflexivity.
Qed.


(** ** Byte strings and file names *)

Lemma substring_none (n : nat) (s : string) : String.substring n 0 s = EmptyString.
Proof.
  revert s. induction n as [|n IH]; intros [|c s]; cbn; try reflexivity.
  apply IH.
Qed.

Lemma append_cons (c : ascii) (s t : string) :
  String c s +:+ t = String c (s +:+ t).
Proof. reflexivity. Qed.

Lemma append_empty (s : string) : s +:+ EmptyString = s.
Proof.
  induction s as [|c s IH]; [reflexivity|]. rewrite append_cons, IH. reflexivity.
Qed.

Lemma append_length (s t : string) :
  String.length (s +:+ t) = (String.length s + String.length t)%nat.
Proof.
  induction s as [|c s IH]; [reflexivity|].
  rewrite append_cons. cbn [String.length]. rewrite IH. reflexivity.
Qed.

Lemma substring_length (n m : nat) (s : string) :
  (n + m <= String.length s)%nat -> String.length (String.substring n m s) = m.
Proof.
  revert m s. induction n as [|n IH]; intros m s.
  - revert s. induction m as [|m IHm]; intros [|c s]; cbn; intros Hl;
      try reflexivity; try lia. f_equal. apply IHm. lia.
  - destruct s as [|c s]; cbn; intros Hl; [lia|]. apply IH. lia.
Qed.

(** Writing over a file that is no longer than the data leaves the data. *)
Lemma write_at_start_short (old b : string) :
  (String.length old <= String.length b)%nat -> write_at_start old b = b.
Proof.
  intros Hl. unfold write_at_start.
  replace (String.length old - String.length b)%nat with 0%nat by lia.
  rewrite substring_none. apply append_empty.
Qed.

(** Writing over a longer file keeps its tail: the file stays as long as
    it was. *)
Lemma write_at_start_long (old b : string) :
  (String.length b < String.length old)%nat ->
  String.length (write_at_start old b) = String.length old
  /\ write_at_start old b <> b.
Proof.
  intros Hl. unfold write_at_start.
  assert (Hlen : String.length
            (b +:+ String.substring (String.length b)
                     (String.length old - String.length b) old)
          = String.length old).
  { rewrite append_length, substring_length by lia. lia. }
  split; [exact Hlen|]. intros E. rewrite E in Hlen. lia.
Qed.

Lemma path_Join_temp_ne_meta (dir : string) :
  path_Join dir TempMetadataFileName <> path_Join dir DataPartitionMetadataFileName.
Proof.
  unfold path_Join. induction dir as [|c dir IH].
  - discriminate.
  - rewrite !append_cons. intros E. injection E as E. exact (IH E).
Qed.


Section Facts.
Context `{Ext : Externals} {Store : Type} `{API : ExtentStoreAPI Store}.
Implicit Type dp : DataPartition Store.

(** ** Validate *)

(** C7. [Validate] returns an error exactly when the volume id is empty
    once trimmed, or the partition id is zero, or the partition size is
    zero; it returns no error for every other descriptor. *)
Theorem Validate_rejects_iff (md : DataPartitionMetadata) :
  (is_Some (snd (Validate md)) <->
     TrimSpace (VolumeID md) = EmptyString \/ PartitionID md = 0 \/ PartitionSize md = 0)
  /\ (snd (Validate md) = None <->
        ~ (TrimSpace (VolumeID md) = EmptyString \/ PartitionID md = 0 \/ PartitionSize md = 0)).
Proof.
  unfold Validate. cbn [VolumeID PartitionID PartitionSize].
  set (v := TrimSpace (VolumeID md)).
  assert (Hlen : (Z.of_nat (String.length v) =? 0) = true <-> v = EmptyString).
  { rewrite Z.eqb_eq. destruct v; cbn; split; intros E;
      try reflexivity; try discriminate; lia. }
  destruct ((Z.of_nat (String.length v) =? 0)
            || (PartitionID md =? 0) || (PartitionSize md =? 0)) eqn:E; cbn [snd].
  - rewrite !orb_true_iff, Hlen, !Z.eqb_eq in E.
    split; split; intros H0; eauto; try discriminate; tauto.
  - rewrite !orb_false_iff in E. destruct E as [[E1 E2] E3].
    rewrite Z.eqb_neq in E2, E3.
    assert (Hv : v <> EmptyString) by (intros Hv; apply Hlen in Hv; congruence).
    split; split; intros H0; try tauto.
    destruct H0 as [x Hx]; discriminate.
Qed.

(** ** Capacity accounting *)

Lemma parseFileName_tiny (name : string) :
  tiny_extent_file name = true <->
  exists extentID, parseFileName name = (extentID, true) /\ IsTinyExtent extentID = true.
Proof.
  unfold tiny_extent_file, parseFileName.
  destruct (RegexpExtentFile_MatchString name); cbn [negb andb].
  - destruct (ParseUint name) as [extentID [e|]].
    + split; [discriminate|]. intros (x & Hx & _). discriminate.
    + split.
      * intros Ht. exists extentID. split; [reflexivity|assumption].
      * intros (x & Hx & Ht). congruence.
  - split; [discriminate|]. intros (x & Hx & _). discriminate.
Qed.

(** The whole of [actualSize], by the kind of the file. *)
Lemma actualSize_cases (fsys : FileSystem) (dir : string) (finfo : FileInfo) :
  actualSize fsys dir finfo =
  if tiny_extent_file (Name finfo) then
    match syscall_Stat fsys (dir +:+ "/" +:+ Name finfo) with
    | inl stat => wrap_int64 (Blocks stat * 512)
    | inr _ => Size finfo
    end
  else Size finfo.
Proof.
  unfold actualSize, tiny_extent_file, parseFileName.
  destruct (RegexpExtentFile_MatchString (Name finfo)); cbn [negb andb];
    [|reflexivity].
  destruct (ParseUint (Name finfo)) as [extentID [e|]]; cbn [negb];
    [reflexivity|].
  destruct (IsTinyExtent extentID); reflexivity.
Qed.

(** C5. [actualSize] is the logical length of the file, except for a tiny
    extent file (the name matches the extent-file regexp, parses as a
    64-bit extent id, and the id is in the tiny range): there it is the
    count of allocated blocks that the filesystem stat reports, times
    512. *)
Theorem actualSize_billing (fsys : FileSystem) (dir : string) (finfo : FileInfo) :
  (tiny_extent_file (Name finfo) = false ->
     actualSize fsys dir finfo = Size finfo)
  /\ (forall stat,
        tiny_extent_file (Name finfo) = true ->
        syscall_Stat fsys (dir +:+ "/" +:+ Name finfo) = inl stat ->
        in_int64 (Blocks stat * 512) ->
        actualSize fsys dir finfo = Blocks stat * 512).
Proof.
  rewrite actualSize_cases. split.
  - intros ->. reflexivity.
  - intros stat -> -> Hr. apply wrap_int64_id, Hr.
Qed.

(** C10. [actualSize] always returns a size; for a tiny extent file whose
    stat fails it returns the logical length, and that length is what the
    usage loop adds for the file. *)
Theorem actualSize_stat_error (fsys : FileSystem) (dir : string) (finfo : FileInfo)
    (err : error) :
  tiny_extent_file (Name finfo) = true ->
  syscall_Stat fsys (dir +:+ "/" +:+ Name finfo) = inr err ->
  actualSize fsys dir finfo = Size finfo
  /\ forall files acc,
       sumSizes fsys dir (files ++ [finfo]) acc
       = wrap_int64 (sumSizes fsys dir files acc + Size finfo).
Proof.
  intros Ht He.
  assert (Ha : actualSize fsys dir finfo = Size finfo).
  { rewrite actualSize_cases, Ht, He. reflexivity. }
  split; [exact Ha|].
  intros files acc. unfold sumSizes. rewrite fold_left_app. cbn [fold_left].
  rewrite Ha. reflexivity.
Qed.

(** ** Status machine *)

Lemma status_code_mono (a b : PartitionStatus) :
  Unavailable < ReadOnly < ReadWrite ->
  Z.min (status_code a) (status_code b) = status_code (status_min a b).
Proof.
  intros Hord. destruct a, b; unfold status_min; cbn; lia.
Qed.

(** C3. After [statusUpdate] the status is the lower of the local status
    and the disk status in the order [Unavailable < ReadOnly < ReadWrite];
    the local status is [ReadOnly] iff the used bytes reach the partition
    size or the extent count reaches [MaxActiveExtents], else
    [ReadWrite]. *)
Theorem statusUpdate_min (now_entry now_exit : Z) (fsys : FileSystem) dp
    (d : PartitionStatus) :
  Unavailable < ReadOnly < ReadWrite ->
  - 2 ^ 53 <= Unavailable ->
  ReadWrite <= 2 ^ 53 ->
  Status (disk dp) = status_code d ->
  let dp' := statusUpdate now_entry now_exit fsys dp in
  partitionStatus dp'
  = status_code
      (status_min
         (local_status (used dp') (partitionSize dp')
            (GetExtentCount (extentStore dp')))
         d).
Proof.
  intros Hord Hlo Hhi Hd. cbv zeta. unfold statusUpdate. cbv zeta.
  set (dp1 := computeUsage now_entry now_exit fsys dp).
  assert (Hdisk : disk dp1 = disk dp).
  { unfold dp1, computeUsage.
    destruct (_ <? _); [reflexivity|].
    destruct (ioutil_ReadDir fsys (path dp)); reflexivity. }
  cbn [Upd.status partitionStatus used partitionSize extentStore].
  rewrite Hdisk, Hd.
  set (loc := local_status (used dp1) (partitionSize dp1)
                (GetExtentCount (extentStore dp1))).
  assert (Hloc :
    (if MaxActiveExtents <=? GetExtentCount (extentStore dp1) then ReadOnly
     else if partitionSize dp1 <=? used dp1 then ReadOnly else ReadWrite)
    = status_code loc).
  { unfold loc, local_status.
    destruct (partitionSize dp1 <=? used dp1);
      destruct (MaxActiveExtents <=? GetExtentCount (extentStore dp1));
      reflexivity. }
  rewrite Hloc.
  rewrite float_min_exact.
  - apply status_code_mono, Hord.
  - destruct loc; cbn; lia.
  - destruct d; cbn; lia.
Qed.


(** ** Repair: the extents to create *)

Lemma augments_fold (store : Store) (created repaired : list ExtentInfo) :
  augments store created repaired
    (fst (fold_left createOne created (store, repaired)))
    (snd (fold_left createOne created (store, repaired))).
Proof.
  revert store repaired.
  induction created as [|e es IH]; intros store repaired; cbn [fold_left fst snd].
  - constructor.
  - unfold createOne at 2 4.
    destruct (IsTinyExtent (FileID e)) eqn:Et.
    + apply aug_tiny; [assumption|apply IH].
    + destruct (HasExtent store (wrap_uint64 (FileID e))) eqn:Eh.
      * apply aug_exists; [assumption..|apply IH].
      * destruct (Create store (wrap_uint64 (FileID e)) (Inode e))
          as [s1 [err|]] eqn:Ec.
        -- eapply aug_create_failed; [eassumption..|apply IH].
        -- eapply aug_created; [eassumption..|apply IH].
Qed.

Lemma augments_functional (store : Store) (created repaired : list ExtentInfo)
    (s' : Store) (r' : list ExtentInfo) :
  augments store created repaired s' r' ->
  fold_left createOne created (store, repaired) = (s', r').
Proof.
  induction 1 as [s r | s e es r s' r' Et _ IH | s e es r s' r' Et Eh _ IH
                 | s s1 e es r s' r' Et Eh Ec _ IH
                 | s s1 err e es r s' r' Et Eh Ec _ IH];
    cbn [fold_left]; [reflexivity|..];
    unfold createOne at 2; rewrite Et; [assumption|..]; rewrite Eh;
    [assumption|..]; rewrite Ec; assumption.
Qed.

(** C4. The first loop of [DoExtentStoreRepair] handles the entries of
    [ExtentsToBeCreated] in order by the four rules: a tiny extent id is
    skipped; an extent that the store has is appended to
    [ExtentsToBeRepaired] and the store is left alone; a missing extent is
    created with the inode id of the entry and appended when the creation
    succeeds; a failed creation appends nothing and the loop goes on. The
    loop ends in the one store and repair list that the rules allow. *)
Theorem createExtents_augments (store : Store) (repairTask : DataPartitionRepairTask)
    (s' : Store) (r' : list ExtentInfo) :
  augments store (ExtentsToBeCreated repairTask) (ExtentsToBeRepaired repairTask) s' r'
  <-> createExtents store repairTask = (s', mkTask (ExtentsToBeCreated repairTask) r').
Proof.
  unfold createExtents. split.
  - intros Ha. apply augments_functional in Ha. rewrite Ha. reflexivity.
  - intros He.
    pose proof (augments_fold store (ExtentsToBeCreated repairTask)
                  (ExtentsToBeRepaired repairTask)) as Ha.
    destruct (fold_left createOne (ExtentsToBeCreated repairTask)
                (store, ExtentsToBeRepaired repairTask)) as [s r].
    cbn [fst snd] in Ha. inversion He; subst. exact Ha.
Qed.


(** ** Replica refresh *)

(** For an address written [host:port], neither part holding a colon, the
    host portion is the host with the blanks around it removed. *)
Lemma hostPortion_host_port (host port : string) :
  has_byte ":" host = false -> has_byte ":" port = false ->
  hostPortion (host +:+ ":" +:+ port) = Some (TrimSpace host).
Proof.
  intros Hh Hp. unfold hostPortion.
  change (host +:+ ":" +:+ port) with (host +:+ String ":" port).
  rewrite (Split_byte_first _ _ _ Hh), (Split_byte_none _ _ Hp). reflexivity.
Qed.

Lemma fetchReplicasFromMaster_ok (request : string -> string + error) dp
    (bufs : string) (hosts : list string) :
  request (pretty (wrap_int64 (partitionID dp))) = inl bufs ->
  json_Unmarshal_Hosts bufs = inl (Some hosts) ->
  fetchReplicasFromMaster request dp
  = Returns
      (match hosts with
       | [] => false
       | host0 :: _ =>
           match hostPortion host0 with
           | Some h => String.eqb h LocalIP
           | None => false
           end
       end, hosts, None).
Proof.
  intros Hr Hj. unfold fetchReplicasFromMaster. rewrite Hr, Hj.
  rewrite fold_left_snoc. cbn [app].
  destruct hosts as [|host0 rest]; [reflexivity|].
  unfold hostPortion.
  destruct (Split_byte ":" host0) as [|h [|p [|q l]]]; reflexivity.
Qed.

(** X22. [compareReplicas] answers true exactly when the two lists are
    the same: the same length and the same address at every position. *)
Lemma compareReplicas_eq (v1 v2 : list string) :
  compareReplicas v1 v2 = true <-> v1 = v2.
Proof.
  revert v2. induction v1 as [|a v1 IH]; intros [|b v2]; cbn;
    try (split; [discriminate|discriminate]); [tauto|].
  destruct (String.eqb a b) eqn:E.
  - apply String.eqb_eq in E. subst b. rewrite IH. split; congruence.
  - apply String.eqb_neq in E. split; [discriminate|]. congruence.
Qed.

(** C8. When [updateReplicas] refreshes (the rate limit has passed, the
    master answers and the answer decodes), the replicas are the returned
    hosts and [isLeader] is true iff the hosts list is non-empty and the
    host portion of its first element equals [LocalIP]; in every other
    case of a refresh [isLeader] is false. *)
Theorem updateReplicas_isLeader (now_entry now_exit : Z)
    (request : string -> string + error) dp (bufs : string) (hosts : list string) :
  IntervalToUpdateReplica < wrap_int64 (now_entry - intervalToUpdateReplicas dp) ->
  request (pretty (wrap_int64 (partitionID dp))) = inl bufs ->
  json_Unmarshal_Hosts bufs = inl (Some hosts) ->
  exists dp',
    updateReplicas now_entry now_exit request dp = Returns (dp', None)
    /\ replicas dp' = hosts
    /\ (isLeader dp' = true <->
          exists host0 rest,
            hosts = host0 :: rest /\ hostPortion host0 = Some LocalIP).
Proof.
  intros Hrate Hr Hj. unfold updateReplicas.
  destruct (_ <=? _) eqn:E; [apply Z.leb_le in E; lia|].
  rewrite (fetchReplicasFromMaster_ok request _ bufs hosts) by assumption.
  eexists. split; [reflexivity|].
  cbn [Upd.refreshed replicas isLeader].
  split; [reflexivity|].
  destruct hosts as [|host0 rest].
  - split; [discriminate|]. intros (h & t & Hnil & _). discriminate.
  - destruct (hostPortion host0) as [h|] eqn:Eh.
    + rewrite String.eqb_eq. split.
      * intros ->. exists host0, rest. split; [reflexivity|assumption].
      * intros (h0 & t & Hc & Hp). inversion Hc; subst. congruence.
    + split; [discriminate|].
      intros (h0 & t & Hc & Hp). inversion Hc; subst. congruence.
Qed.


(** ** Repair: the dispatch loop *)

Lemma repair_inv_step (s t : RepairState Store) :
  0 < NumOfFilesToRecoverInParallel ->
  repair_inv s -> repair_step s t -> repair_inv t.
Proof.
  intros HN (Hri & Hlen & Hn & Hloc) Hstep. unfold repair_inv.
  destruct Hstep as [e rest ri n st Hh | e rest ri n st Hh | rest ri st
                    | ri n st | ri st | rest ri n st l Hpos | rest ri n st st' l];
    cbn [recoverIndex pending inflight loc length] in *.
  - repeat split; try assumption; lia.
  - assert (Hw : wrap_int64 (ri + 1) = ri + 1).
    { apply wrap_int64_id. unfold in_int64, minInt64, maxInt64 in *. lia. }
    rewrite Hw. rewrite Z.rem_mod_nonneg by lia.
    pose proof (Z.mod_pos_bound ri NumOfFilesToRecoverInParallel HN) as Hb.
    repeat split; try lia.
    destruct ((ri + 1) mod NumOfFilesToRecoverInParallel =? 0) eqn:E; cbn [loc].
    + lia.
    + apply Z.eqb_neq in E.
      assert (HN0 : NumOfFilesToRecoverInParallel <> 0) by lia.
      pose proof (Z.div_mod ri NumOfFilesToRecoverInParallel HN0) as Hdm.
      assert (Hm : ri mod NumOfFilesToRecoverInParallel + 1
                   = (ri + 1) mod NumOfFilesToRecoverInParallel).
      { destruct (Z.eq_dec (ri mod NumOfFilesToRecoverInParallel + 1)
                    NumOfFilesToRecoverInParallel) as [Heq|Hne].
        - exfalso. apply E. symmetry.
          apply Z.mod_unique with (q := ri / NumOfFilesToRecoverInParallel + 1);
            lia.
        - apply Z.mod_unique with (q := ri / NumOfFilesToRecoverInParallel);
            lia. }
      lia.
  - repeat split; try assumption; try lia.
    apply Z.mod_pos_bound; assumption.
  - repeat split; try assumption; lia.
  - repeat split; try assumption; lia.
  - destruct l; repeat split; lia.
  - repeat split; assumption.
Qed.


Lemma repair_inv_init (store : Store) (repairTask : DataPartitionRepairTask) :
  0 < NumOfFilesToRecoverInParallel ->
  Z.of_nat (length (ExtentsToBeRepaired repairTask)) <= maxInt64 ->
  repair_inv (repair_init store repairTask).
Proof.
  intros HN Hlen. unfold repair_inv, repair_init. cbn.
  repeat split; try lia. rewrite Z.mod_0_l by lia. lia.
Qed.

Lemma repair_inv_bound (s : RepairState Store) :
  0 < NumOfFilesToRecoverInParallel ->
  repair_inv s ->
  0 <= inflight s <= NumOfFilesToRecoverInParallel
  /\ (loc s = Returned -> inflight s = 0).
Proof.
  intros HN (Hri & Hlen & Hn & Hloc).
  pose proof (Z.mod_pos_bound (recoverIndex s) NumOfFilesToRecoverInParallel HN).
  destruct (loc s); (split; [lia|]); intros E; try discriminate; assumption.
Qed.

Lemma repair_inv_reachable (s0 s : RepairState Store) :
  0 < NumOfFilesToRecoverInParallel ->
  repair_inv s0 -> repair_reachable s0 s -> repair_inv s.
Proof.
  intros HN H0 Hreach. unfold repair_reachable in Hreach.
  revert s Hreach. apply rtc_ind_r.
  - exact H0.
  - intros y z _ Hyz IH. eapply repair_inv_step; eassumption.
Qed.

Lemma createOne_length (l : list ExtentInfo) (store : Store) (r : list ExtentInfo) :
  (length (snd (fold_left createOne l (store, r))) <= length r + length l)%nat.
Proof.
  revert store r. induction l as [|e l IH]; intros store r; cbn [fold_left length].
  - cbn. lia.
  - unfold createOne at 2.
    destruct (IsTinyExtent (FileID e)).
    + specialize (IH store r). lia.
    + destruct (HasExtent store (wrap_uint64 (FileID e))).
      * specialize (IH store (r ++ [repairInfo e])%list).
        rewrite length_app in IH. cbn [length] in IH. lia.
      * destruct (Create store (wrap_uint64 (FileID e)) (Inode e)) as [s1 [err|]].
        -- specialize (IH s1 r). lia.
        -- specialize (IH s1 (r ++ [repairInfo e])%list).
           rewrite length_app in IH. cbn [length] in IH. lia.
Qed.

(** C9. In every state that an execution of [DoExtentStoreRepair]
    reaches in its dispatch loop, the workers in flight are at most
    [NumOfFilesToRecoverInParallel], and when the function has returned
    none is in flight. *)
Theorem repair_bounded_fanout (store : Store) (repairTask : DataPartitionRepairTask)
    (s : RepairState Store) :
  0 < NumOfFilesToRecoverInParallel ->
  Z.of_nat (length (ExtentsToBeCreated repairTask)
            + length (ExtentsToBeRepaired repairTask)) <= maxInt64 ->
  repair_reachable (DoExtentStoreRepair store repairTask) s ->
  0 <= inflight s <= NumOfFilesToRecoverInParallel
  /\ (loc s = Returned -> inflight s = 0).
Proof.
  intros HN Hlen Hreach. apply repair_inv_bound; [assumption|].
  apply (repair_inv_reachable _ _ HN) in Hreach; [exact Hreach|].
  unfold DoExtentStoreRepair, createExtents.
  pose proof (createOne_length (ExtentsToBeCreated repairTask) store
                (ExtentsToBeRepaired repairTask)) as Hl.
  destruct (fold_left createOne (ExtentsToBeCreated repairTask)
              (store, ExtentsToBeRepaired repairTask)) as [store' r'].
  cbn [snd] in Hl.
  apply repair_inv_init; [assumption|]. cbn [ExtentsToBeRepaired]. lia.
Qed.

(** The loop can run to its end: every worker may finish before the next
    step of the loop. *)
Lemma repair_can_return (rest : list ExtentInfo) (ri : Z) (st : Store) :
  exists ri', rtc repair_step (mkRS rest ri 0 st AtLoop) (mkRS [] ri' 0 st Returned).
Proof.
  revert ri. induction rest as [|e rest IH]; intros ri.
  - exists ri. eapply rtc_l; [apply step_loop_end|].
    eapply rtc_l; [apply step_return|]. apply rtc_refl.
  - destruct (HasExtent st (wrap_uint64 (FileID e))) eqn:Eh.
    + destruct (IH (wrap_int64 (ri + 1))) as [ri' Hri'].
      exists ri'.
      eapply rtc_l; [apply step_dispatch; exact Eh|].
      eapply rtc_l; [apply step_worker_done; lia|].
      replace (0 + 1 - 1) with 0 by lia.
      destruct (Z.rem (wrap_int64 (ri + 1)) NumOfFilesToRecoverInParallel =? 0).
      * eapply rtc_l; [apply step_barrier|]. exact Hri'.
      * exact Hri'.
    + destruct (IH ri) as [ri' Hri']. exists ri'.
      eapply rtc_l; [apply step_skip; exact Eh|]. exact Hri'.
Qed.


(** ** Stop *)

Lemma newDataPartition_stopC (dpCfg : dataPartitionCfg) (d : Disk) dp :
  newDataPartition dpCfg d = inl dp -> stopC dp = chan_open.
Proof.
  unfold newDataPartition.
  destruct (NewExtentStore _ _ _); intros E; inversion E; reflexivity.
Qed.

(** C1, as the code runs: on a partition that [newDataPartition] built,
    the first [Stop] returns and leaves the stop channel closed, and the
    second [Stop] closes the closed channel and panics. *)
Theorem Stop_twice_panics (dpCfg : dataPartitionCfg) (d : Disk) dp :
  newDataPartition dpCfg d = inl dp ->
  exists dp1,
    Stop dp = Returns dp1
    /\ stopC dp1 = chan_closed
    /\ Stop dp1 = Panics "close of closed channel".
Proof.
  intros Hnew. apply newDataPartition_stopC in Hnew.
  unfold Stop. rewrite Hnew. cbn [close].
  eexists. split; [reflexivity|]. cbn [Upd.stopped stopC close]. split; reflexivity.
Qed.

(** ** PersistMetadata *)

(** What a call of [PersistMetadata] that returns no error leaves behind:
    the peers of the configuration sorted, [META] holding what the write
    made of the temp file, and no temp file. *)
Lemma PersistMetadata_success (now : Time) (io : PersistIO)
    (files files' : gmap string string) dp dp' :
  PersistMetadata now io files dp = (files', dp', None) ->
  let tmp := path_Join (path dp) TempMetadataFileName in
  let dp1 := Upd.peers dp (sort_Sort (cfgPeers (config dp))) in
  let md := metadataOf now (config dp1) in
  dp' = dp1
  /\ files' !! path_Join (path dp) DataPartitionMetadataFileName
     = Some (write_at_start (default EmptyString (files !! tmp)) (json_Marshal md))
  /\ files' !! tmp = None.
Proof.
  cbv zeta. unfold PersistMetadata.
  pose proof (path_Join_temp_ne_meta (path dp)) as Hne.
  set (tmp := path_Join (path dp) TempMetadataFileName) in *.
  set (meta := path_Join (path dp) DataPartitionMetadataFileName) in *.
  destruct (open_err io) as [e|]; [intros E; inversion E|].
  destruct (write_err io) as [[n e]|]; [intros E; inversion E|].
  destruct (rename_err io) as [e|]; [intros E; inversion E|].
  cbn [path Upd.peers].
  fold tmp. fold meta.
  assert (Hold : default EmptyString (OpenFile_CREATE_RDWR files tmp !! tmp)
                 = default EmptyString (files !! tmp)).
  { unfold OpenFile_CREATE_RDWR. destruct (files !! tmp) as [c|] eqn:Ef.
    - rewrite Ef. reflexivity.
    - rewrite lookup_insert_eq. reflexivity. }
  rewrite Hold.
  set (content := write_at_start _ _).
  set (F := OpenFile_CREATE_RDWR files tmp).
  intros E. inversion E as [[Hf Hd]]. clear E Hd.
  split; [reflexivity|].
  unfold Rename. rewrite lookup_insert_eq.
  unfold persist_cleanup.
  destruct (remove_fails io).
  - split.
    + apply lookup_insert_eq.
    + rewrite lookup_insert_ne by congruence. apply lookup_delete_eq.
  - split.
    + rewrite lookup_delete_ne by congruence. apply lookup_insert_eq.
    + apply lookup_delete_eq.
Qed.


(** X23. With no temp file left over, a call of [PersistMetadata] that
    returns no error leaves in [META] the text of the descriptor, whose
    peers are those of the configuration in ascending order of id, and
    leaves no temp file. *)
Lemma PersistMetadata_fresh `{!SortSorts} (now : Time) (io : PersistIO)
    (files files' : gmap string string) dp dp' :
  files !! tempFile dp = None ->
  PersistMetadata now io files dp = (files', dp', None) ->
  let md := metadataOf now (config dp') in
  files' !! metaFile dp = Some (json_Marshal md)
  /\ files' !! tempFile dp = None
  /\ StronglySorted (fun p q => ID p <= ID q) (Peers md)
  /\ Permutation (Peers md) (cfgPeers (config dp)).
Proof.
  intros Hfresh Hp. apply PersistMetadata_success in Hp.
  cbv zeta in Hp. destruct Hp as (-> & Hmeta & Htmp).
  unfold tempFile in Hfresh. rewrite Hfresh in Hmeta. cbn [default] in Hmeta.
  rewrite write_at_start_short in Hmeta by (cbn; lia).
  cbv zeta. repeat split; try assumption.
  - cbn. apply sort_Sort_sorted.
  - cbn. apply sort_Sort_perm.
Qed.

(** C6, as the code runs: the temp file is opened without truncation, so
    when a temp file longer than the descriptor was left over, a call
    that returns no error leaves in [META] the descriptor followed by the
    tail of the old file: [META] is as long as the old file and is not
    the text of the descriptor. *)
Theorem PersistMetadata_stale_temp (now : Time) (io : PersistIO)
    (files files' : gmap string string) dp dp' (old : string) :
  files !! tempFile dp = Some old ->
  (String.length (json_Marshal (metadataOf now (config dp'))) < String.length old)%nat ->
  PersistMetadata now io files dp = (files', dp', None) ->
  exists content,
    files' !! metaFile dp = Some content
    /\ String.length content = String.length old
    /\ content <> json_Marshal (metadataOf now (config dp')).
Proof.
  intros Hold Hlen Hp. apply PersistMetadata_success in Hp.
  cbv zeta in Hp. destruct Hp as (-> & Hmeta & Htmp).
  unfold tempFile in Hold. rewrite Hold in Hmeta. cbn [default] in Hmeta.
  eexists. split; [exact Hmeta|].
  apply write_at_start_long. exact Hlen.
Qed.

(** C2, as the code has it: [PersistMetadata] stamps the descriptor with
    the time of the call. A call that starts with no temp file left over
    and returns no error leaves in [META] the descriptor of the sorted
    configuration whose [CreateTime] is the reading of the clock during
    that call, in the layout [TimeLayout]. *)
Theorem PersistMetadata_stamps_now (now : Time) (io : PersistIO)
    (files files' : gmap string string) dp dp' :
  files !! tempFile dp = None ->
  PersistMetadata now io files dp = (files', dp', None) ->
  exists md,
    files' !! metaFile dp = Some (json_Marshal md)
    /\ md = metadataOf now (config dp')
    /\ CreateTime md = Format_TimeLayout now.
Proof.
  intros Hfresh Hp. apply PersistMetadata_success in Hp.
  cbv zeta in Hp. destruct Hp as (-> & Hmeta & Htmp).
  unfold tempFile in Hfresh. rewrite Hfresh in Hmeta. cbn [default] in Hmeta.
  rewrite write_at_start_short in Hmeta by (cbn; lia).
  eexists. split; [exact Hmeta|]. split; reflexivity.
Qed.


End Facts.

(** * Further properties of the partition code *)

Section MoreFacts.
Context `{Ext : Externals} {Store : Type} `{API : ExtentStoreAPI Store}.
Context {File : Type} `{MAPI : MaintenanceAPI Store File} `{Dec : MetaDecoder}.
Implicit Type dp : DataPartition Store.

(** ** Stop *)

(** X1. [Stop] faults exactly when the stop channel is already closed.
    On a nil channel it returns and leaves the channel nil, so that it
    may be called again; on an open channel it returns with the channel
    closed. In both cases the store is closed and every field but the
    channel, the store and the raft handle is kept. *)
Theorem Stop_faults_iff dp :
  ((exists msg, Stop dp = Panics msg) <-> stopC dp = chan_closed)
  /\ (stopC dp <> chan_closed ->
      Stop dp
      = Returns (Upd.stopped dp
                   (match stopC dp with chan_nil => chan_nil | _ => chan_closed end)
                   (Close (extentStore dp)) (stopRaft (raftPartition dp)))).
Proof.
  unfold Stop. destruct (stopC dp) eqn:E; cbn [close]; split.
  - split; [intros [msg Hm]; discriminate|discriminate].
  - reflexivity.
  - split; [intros [msg Hm]; discriminate|discriminate].
  - reflexivity.
  - split; [reflexivity|]. intros _. eexists. reflexivity.
  - intros Hne. contradiction.
Qed.

(** ** PersistMetadata: what a call leaves alone *)

Lemma OpenFile_other (files : gmap string string) (name p : string) :
  p <> name -> OpenFile_CREATE_RDWR files name !! p = files !! p.
Proof.
  intros Hne. unfold OpenFile_CREATE_RDWR.
  destruct (files !! name); [reflexivity|].
  apply lookup_insert_ne. congruence.
Qed.

Lemma persist_cleanup_other (io : PersistIO) (name p : string)
    (files : gmap string string) :
  p <> name -> persist_cleanup io name files !! p = files !! p.
Proof.
  intros Hne. unfold persist_cleanup.
  destruct (remove_fails io); [reflexivity|].
  apply lookup_delete_ne. congruence.
Qed.

(** X2. [PersistMetadata] touches two files only: whatever it returns,
    every file other than the temp file and [META] of the partition holds
    after the call what it held before. *)
Theorem PersistMetadata_frame (now : Time) (io : PersistIO)
    (files : gmap string string) dp (p : string) :
  p <> tempFile dp -> p <> metaFile dp ->
  fst (fst (PersistMetadata now io files dp)) !! p = files !! p.
Proof.
  unfold tempFile, metaFile, PersistMetadata. intros Ht Hm.
  set (tmp := path_Join (path dp) TempMetadataFileName) in *.
  destruct (open_err io) as [e|]; [reflexivity|].
  cbn [path Upd.peers].
  set (meta := path_Join (path dp) DataPartitionMetadataFileName) in *.
  destruct (write_err io) as [[n e]|]; cbn [fst].
  - rewrite persist_cleanup_other, lookup_insert_ne, OpenFile_other by congruence.
    reflexivity.
  - destruct (rename_err io) as [e|]; cbn [fst].
    + rewrite persist_cleanup_other, lookup_insert_ne, OpenFile_other by congruence.
      reflexivity.
    + rewrite persist_cleanup_other by congruence.
      unfold Rename. rewrite lookup_insert_eq.
      rewrite lookup_insert_ne, lookup_delete_ne, lookup_insert_ne, OpenFile_other
        by congruence.
      reflexivity.
Qed.

Lemma PersistMetadata_error_effect (now : Time) (io : PersistIO)
    (files files' : gmap string string) dp dp' (err : error) :
  PersistMetadata now io files dp = (files', dp', Some err) ->
  files' !! metaFile dp = files !! metaFile dp
  /\ (open_err io = None -> remove_fails io = false ->
      files' !! tempFile dp = None).
Proof.
  unfold tempFile, metaFile, PersistMetadata.
  pose proof (path_Join_temp_ne_meta (path dp)) as Hne.
  set (tmp := path_Join (path dp) TempMetadataFileName) in *.
  destruct (open_err io) as [e|].
  { intros E. inversion E; subst. split; [reflexivity|discriminate]. }
  cbn [path Upd.peers].
  set (meta := path_Join (path dp) DataPartitionMetadataFileName) in *.
  destruct (write_err io) as [[n e]|].
  - intros E. inversion E; subst. split.
    + rewrite persist_cleanup_other, lookup_insert_ne, OpenFile_other by congruence.
      reflexivity.
    + intros _ Hr. unfold persist_cleanup. rewrite Hr. apply lookup_delete_eq.
  - destruct (rename_err io) as [e|]; [|intros E; inversion E].
    intros E. inversion E; subst. split.
    + rewrite persist_cleanup_other, lookup_insert_ne, OpenFile_other by congruence.
      reflexivity.
    + intros _ Hr. unfold persist_cleanup. rewrite Hr. apply lookup_delete_eq.
Qed.

(** X3. A call of [PersistMetadata] that returns an error leaves [META]
    as it was: the old descriptor is never damaged. When the file could
    be opened and the deferred remove works, no temp file is left
    either. *)
Theorem PersistMetadata_error_keeps_META (now : Time) (io : PersistIO)
    (files files' : gmap string string) dp dp' (err : error) :
  PersistMetadata now io files dp = (files', dp', Some err) ->
  files' !! metaFile dp = files !! metaFile dp
  /\ (open_err io = None -> remove_fails io = false ->
      files' !! tempFile dp = None).
Proof.
  intros Hp. eapply PersistMetadata_error_effect. exact Hp.
Qed.


(** ** PersistMetadata: the same bytes on every replica *)

Lemma sorted_head_least (a : Peer) (l : list Peer) (x : Peer) :
  StronglySorted (fun p q => ID p <= ID q) (a :: l) -> In x (a :: l) -> ID a <= ID x.
Proof.
  intros Hs Hin. apply StronglySorted_inv in Hs. destruct Hs as [_ Hall].
  destruct Hin as [->|Hin]; [lia|].
  rewrite Forall_forall in Hall. apply Hall. apply list_elem_of_In. exact Hin.
Qed.

Lemma NoDup_ID_inj (l : list Peer) (x y : Peer) :
  List.NoDup (map ID l) -> In x l -> In y l -> ID x = ID y -> x = y.
Proof.
  induction l as [|a l IH]; cbn; intros Hnd Hx Hy He; [contradiction|].
  inversion Hnd as [|? ? Hnotin Hnd']; subst.
  destruct Hx as [<-|Hx]; destruct Hy as [<-|Hy].
  - reflexivity.
  - exfalso. apply Hnotin. rewrite He. apply in_map. exact Hy.
  - exfalso. apply Hnotin. rewrite <- He. apply in_map. exact Hx.
  - apply IH; assumption.
Qed.

(** Two sorted lists of peers with distinct ids that hold the same peers
    are the same list. *)
Lemma sorted_perm_unique (l1 l2 : list Peer) :
  StronglySorted (fun p q => ID p <= ID q) l1 ->
  StronglySorted (fun p q => ID p <= ID q) l2 ->
  Permutation l1 l2 ->
  List.NoDup (map ID l1) ->
  l1 = l2.
Proof.
  revert l2. induction l1 as [|a l1 IH]; intros l2 Hs1 Hs2 Hp Hnd.
  - apply Permutation_nil in Hp. congruence.
  - destruct l2 as [|b l2].
    { symmetry in Hp. apply Permutation_nil in Hp. discriminate. }
    assert (Hab : a = b).
    { apply (NoDup_ID_inj (a :: l1)); [exact Hnd|left; reflexivity|..].
      - apply (Permutation_in b (Permutation_sym Hp)). left. reflexivity.
      - apply Z.le_antisymm.
        + apply (sorted_head_least a l1 b Hs1).
          apply (Permutation_in b (Permutation_sym Hp)). left. reflexivity.
        + apply (sorted_head_least b l2 a Hs2).
          apply (Permutation_in a Hp). left. reflexivity. }
    subst b. f_equal. apply IH.
    + apply StronglySorted_inv in Hs1. tauto.
    + apply StronglySorted_inv in Hs2. tauto.
    + eapply Permutation_cons_inv. exact Hp.
    + cbn in Hnd. inversion Hnd. assumption.
Qed.

(** X4. Replicas write the same bytes: two partitions that agree on
    volume, id and size and hold the same peers with distinct ids, in
    whatever order, each starting without a leftover temp file, leave the
    same content in [META] when they persist at the same clock reading. *)
Theorem PersistMetadata_same_bytes `{!SortSorts} (now : Time) (ioA ioB : PersistIO)
    (filesA filesB filesA' filesB' : gmap string string)
    (dpA dpB dpA' dpB' : DataPartition Store) :
  VolName (config dpA) = VolName (config dpB) ->
  cfgPartitionID (config dpA) = cfgPartitionID (config dpB) ->
  cfgPartitionSize (config dpA) = cfgPartitionSize (config dpB) ->
  Permutation (cfgPeers (config dpA)) (cfgPeers (config dpB)) ->
  List.NoDup (map ID (cfgPeers (config dpA))) ->
  filesA !! tempFile dpA = None ->
  filesB !! tempFile dpB = None ->
  PersistMetadata now ioA filesA dpA = (filesA', dpA', None) ->
  PersistMetadata now ioB filesB dpB = (filesB', dpB', None) ->
  exists content,
    filesA' !! metaFile dpA = Some content
    /\ filesB' !! metaFile dpB = Some content.
Proof.
  intros Hv Hi Hz Hp Hnd HtA HtB HA HB.
  apply PersistMetadata_success in HA. apply PersistMetadata_success in HB.
  cbv zeta in HA, HB.
  destruct HA as (-> & HmA & _). destruct HB as (-> & HmB & _).
  unfold tempFile in HtA, HtB. rewrite HtA in HmA. rewrite HtB in HmB.
  cbn [default] in HmA, HmB.
  rewrite write_at_start_short in HmA by (cbn; lia).
  rewrite write_at_start_short in HmB by (cbn; lia).
  eexists. split; [exact HmA|].
  unfold metaFile. rewrite HmB. f_equal. f_equal.
  unfold metadataOf. cbn [Upd.peers config VolName cfgPartitionID cfgPartitionSize cfgPeers].
  rewrite Hv, Hi, Hz. f_equal.
  symmetry. apply sorted_perm_unique.
  - apply sort_Sort_sorted.
  - apply sort_Sort_sorted.
  - rewrite !sort_Sort_perm. exact Hp.
  - eapply Permutation_NoDup; [|exact Hnd].
    apply Permutation_map. symmetry. apply sort_Sort_perm.
Qed.


(** ** Load *)

Lemma newDataPartition_inv (dpCfg : dataPartitionCfg) (d : Disk) dp :
  newDataPartition dpCfg d = inl dp ->
  config dp = dpCfg /\ disk dp = d
  /\ volumeID dp = VolName dpCfg
  /\ partitionID dp = cfgPartitionID dpCfg
  /\ partitionSize dp = cfgPartitionSize dpCfg
  /\ path dp = path_Join (Path d) (partitionName dp)
  /\ stopC dp = chan_open /\ raftPartition dp = raft_absent
  /\ partitionStatus dp = ReadWrite
  /\ NewExtentStore (path dp) (cfgPartitionID dpCfg) (cfgPartitionSize dpCfg)
     = inl (extentStore dp).
Proof.
  unfold newDataPartition.
  destruct (NewExtentStore _ _ _) as [store|e] eqn:En; intros E; inversion E; subst.
  cbn. unfold partitionName. cbn. repeat split; try reflexivity. exact En.
Qed.

(** X5. A partition that [LoadDataPartition] returns carries a valid
    descriptor read from [META] of the given directory: the volume id is
    the trimmed one and is not empty, id and size are not zero, the peers
    are those of the descriptor. Its own directory is computed from the
    disk path, the id and the size, not taken from the directory that was
    read; its stop channel is open, and when no error is returned the
    consensus partition runs. *)
Theorem LoadDataPartition_sound (io : LoadIO) (space : SpaceManager)
    (files : gmap string string) (partitionDir : string) (d : Disk)
    dp (oerr : option error) :
  LoadDataPartition io space files partitionDir d = (Some dp, oerr) ->
  exists data meta,
    files !! path_Join partitionDir DataPartitionMetadataFileName = Some data
    /\ json_Unmarshal_Meta data = inl meta
    /\ TrimSpace (VolumeID meta) <> EmptyString
    /\ PartitionID meta <> 0 /\ PartitionSize meta <> 0
    /\ volumeID dp = TrimSpace (VolumeID meta)
    /\ partitionID dp = PartitionID meta
    /\ partitionSize dp = PartitionSize meta
    /\ cfgPeers (config dp) = Peers meta
    /\ path dp = path_Join (Path d) (partitionName dp)
    /\ stopC dp = chan_open
    /\ (oerr = None -> raftPartition dp = raft_running).
Proof.
  unfold LoadDataPartition, ReadFile.
  destruct (files !! path_Join partitionDir DataPartitionMetadataFileName)
    as [data|] eqn:Ef; [|intros E; inversion E].
  destruct (read_err io); [intros E; inversion E|].
  destruct (json_Unmarshal_Meta data) as [meta|e] eqn:Ej; [|intros E; inversion E].
  destruct (Validate meta) as [meta' [e|]] eqn:Ev; [intros E; inversion E|].
  unfold Validate in Ev. cbn [VolumeID PartitionID PartitionSize] in Ev.
  destruct ((Z.of_nat (String.length (TrimSpace (VolumeID meta))) =? 0)
            || (PartitionID meta =? 0) || (PartitionSize meta =? 0)) eqn:Eb;
    [inversion Ev|].
  rewrite !orb_false_iff, !Z.eqb_neq in Eb. destruct Eb as [[Hlen Hid] Hsz].
  assert (Hvol : TrimSpace (VolumeID meta) <> EmptyString).
  { intros Hv. rewrite Hv in Hlen. apply Hlen. reflexivity. }
  assert (Hm : meta' = mkMeta (TrimSpace (VolumeID meta)) (PartitionID meta)
                         (PartitionSize meta) (CreateTime meta) (Peers meta))
    by (inversion Ev; reflexivity).
  subst meta'. cbn [VolumeID PartitionID PartitionSize Peers].
  destruct (newDataPartition _ d) as [dp0|e] eqn:En; [|intros E; inversion E].
  apply newDataPartition_inv in En.
  destruct En as (Hc & _ & Hv & Hi & Hz & Hp & Hs & Hr & _).
  cbn [VolName cfgPartitionID cfgPartitionSize] in Hv, Hi, Hz.
  destruct (startRaft_err io); intros E; inversion E; subst;
    exists data, meta;
    cbn [Upd.stopped volumeID partitionID partitionSize config path stopC
         raftPartition partitionName];
    rewrite ?Hc; cbn [cfgPeers];
    (repeat split; try assumption; try reflexivity; try discriminate).
Qed.


(** X25. [LoadDataPartition] refuses a descriptor that is not valid:
    when [META] is read and decodes to a descriptor whose trimmed volume
    id is empty or whose id or size is zero (the empty JSON object, for
    one), it returns the error of [Validate] and no partition. *)
Theorem LoadDataPartition_invalid (io : LoadIO) (space : SpaceManager)
    (files : gmap string string) (partitionDir : string) (d : Disk)
    (data : string) (meta : DataPartitionMetadata) :
  files !! path_Join partitionDir DataPartitionMetadataFileName = Some data ->
  read_err io = None ->
  json_Unmarshal_Meta data = inl meta ->
  TrimSpace (VolumeID meta) = EmptyString
  \/ PartitionID meta = 0 \/ PartitionSize meta = 0 ->
  LoadDataPartition io space files partitionDir d
  = (None, Some (NewError "illegal data partition metadata")).
Proof.
  intros Hf Hr Hj Hbad. unfold LoadDataPartition, ReadFile.
  rewrite Hf, Hr, Hj. unfold Validate. cbn [VolumeID PartitionID PartitionSize].
  assert (Hb : (Z.of_nat (String.length (TrimSpace (VolumeID meta))) =? 0)
               || (PartitionID meta =? 0) || (PartitionSize meta =? 0) = true).
  { rewrite !orb_true_iff, !Z.eqb_eq.
    destruct Hbad as [Hv|[Hi|Hs]]; [left; left; rewrite Hv; reflexivity|..]; tauto. }
  rewrite Hb. reflexivity.
Qed.




(** ** File names and extent ids *)

Lemma pretty_N_char_digit (y : N) :
  (y < 10)%N ->
  is_digit (pretty_N_char y) = true /\ digit_val (pretty_N_char y) = Z.of_N y.
Proof.
  intros Hy.
  assert (Hc : (y = 0 \/ y = 1 \/ y = 2 \/ y = 3 \/ y = 4 \/ y = 5 \/ y = 6
                \/ y = 7 \/ y = 8 \/ y = 9)%N) by lia.
  repeat (destruct Hc as [->|Hc]; [split; reflexivity|]).
  subst y. split; reflexivity.
Qed.

Lemma pretty_N_go_nonempty (x : N) (s : string) :
  s <> EmptyString -> pretty_N_go x s <> EmptyString.
Proof.
  revert s. induction (N.lt_wf_0 x) as [x _ IH]; intros s Hs.
  destruct (N.eq_dec x 0%N) as [->|Hx].
  - rewrite pretty_N_go_0. exact Hs.
  - rewrite pretty_N_go_step by lia. apply IH.
    + apply N.div_lt; lia.
    + discriminate.
Qed.

(** Reading the decimal digits of [x] in front of [s] multiplies what
    was read so far by a power of ten and adds [x]. *)
Lemma parseUint_loop_pretty (x : N) :
  exists k : Z,
    0 <= k /\
    forall (s : string) (n0 : Z),
      0 <= n0 ->
      n0 * 10 ^ k + Z.of_N x <= maxUint64 ->
      parseUint_loop (pretty_N_go x s) n0
      = parseUint_loop s (n0 * 10 ^ k + Z.of_N x).
Proof.
  induction (N.lt_wf_0 x) as [x _ IH].
  destruct (N.eq_dec x 0%N) as [->|Hx].
  - exists 0. split; [lia|]. intros s n0 _ _. rewrite pretty_N_go_0.
    f_equal. cbn. lia.
  - destruct (IH (x `div` 10)%N) as (k & Hk & Hloop).
    { apply N.div_lt; lia. }
    exists (k + 1). split; [lia|]. intros s n0 Hn0 Hmax.
    rewrite pretty_N_go_step by lia.
    assert (Hx10 : Z.of_N x = 10 * Z.of_N (x `div` 10) + Z.of_N (x `mod` 10)).
    { pose proof (N.div_mod x 10 ltac:(lia)) as Hdm. lia. }
    assert (Hmod : (x `mod` 10 < 10)%N) by (apply N.mod_lt; lia).
    pose proof (N2Z.is_nonneg (x `mod` 10)) as Hr0.
    rewrite Z.pow_add_r in * by lia. change (10 ^ 1) with 10 in *.
    set (m := n0 * 10 ^ k + Z.of_N (x `div` 10)).
    assert (Hpow : 0 < 10 ^ k) by (apply Z.pow_pos_nonneg; lia).
    assert (Hm : n0 * (10 ^ k * 10) + Z.of_N x = m * 10 + Z.of_N (x `mod` 10)).
    { unfold m. lia. }
    rewrite Hm in *.
    assert (Hm0 : 0 <= m) by (unfold m; nia).
    pose proof (Hloop (String (pretty_N_char (x `mod` 10)) s) n0 Hn0) as Hl.
    fold m in Hl. clearbody m. unfold maxUint64 in *.
    rewrite Hl by (clear - Hmax Hm0 Hr0; lia). clear Hl Hloop IH Hm Hx10.
    destruct (pretty_N_char_digit _ Hmod) as [Hd Hv].
    cbn [parseUint_loop]. rewrite Hd. cbn [negb]. rewrite Hv.
    unfold maxUint64.
    destruct (_ <=? m) eqn:E1.
    { apply Z.leb_le in E1. change ((2 ^ 64 - 1) / 10 + 1) with 1844674407370955162 in E1.
      lia. }
    destruct (_ <? m * 10 + _) eqn:E2; [apply Z.ltb_lt in E2; lia|].
    reflexivity.
Qed.

(** X7. The file named by the decimal form of an extent id is read back
    as that id: for every id that fits 64 bits and whose decimal name the
    extent-file regexp accepts, [parseFileName] returns the id and says
    that the file is an extent. *)
Theorem parseFileName_decimal (id : Z) :
  0 <= id <= maxUint64 ->
  RegexpExtentFile_MatchString (pretty id) = true ->
  parseFileName (pretty id) = (id, true).
Proof.
  intros Hid Hre. unfold parseFileName. rewrite Hre. cbn [negb].
  destruct id as [|p|p]; [reflexivity| |lia].
  assert (Hp : pretty (Z.pos p) = pretty_N_go (N.pos p) EmptyString) by reflexivity.
  rewrite Hp.
  destruct (parseUint_loop_pretty (N.pos p)) as (k & Hk & Hloop).
  specialize (Hloop EmptyString 0 ltac:(lia)).
  rewrite Z.mul_0_l, Z.add_0_l in Hloop. change (Z.of_N (N.pos p)) with (Z.pos p) in Hloop.
  specialize (Hloop (proj2 Hid)). cbn [parseUint_loop] in Hloop.
  unfold ParseUint.
  destruct (pretty_N_go (N.pos p) EmptyString) as [|c s] eqn:Eg.
  - exfalso. revert Eg. rewrite pretty_N_go_step by lia.
    apply pretty_N_go_nonempty. discriminate.
  - rewrite Hloop. reflexivity.
Qed.

Lemma parseUint_loop_range (s : string) (n v : Z) (oe : option NumError) :
  0 <= n <= maxUint64 ->
  parseUint_loop s n = (v, oe) ->
  0 <= v <= maxUint64.
Proof.
  revert n. induction s as [|c s IH]; intros n Hn; cbn [parseUint_loop].
  - intros E. inversion E; subst. exact Hn.
  - destruct (is_digit c) eqn:Ed; cbn [negb].
    + destruct (_ <=? n); [intros E; inversion E; subst; unfold maxUint64; lia|].
      destruct (maxUint64 <? n * 10 + digit_val c) eqn:E2;
        [intros E; inversion E; subst; unfold maxUint64; lia|].
      apply IH. apply Z.ltb_ge in E2. split; [|exact E2].
      unfold is_digit in Ed. cbv zeta in Ed. apply andb_true_iff in Ed.
      destruct Ed as [Ed _]. apply Z.leb_le in Ed. unfold digit_val. lia.
    + intros E. inversion E; subst. unfold maxUint64. lia.
Qed.

(** X8. The id that [parseFileName] returns fits an unsigned 64-bit
    integer, and a name is taken for an extent only when the regexp
    accepts it and [strconv.ParseUint] reads it without error. *)
Theorem parseFileName_range (name : string) (id : Z) (isExtent : bool) :
  parseFileName name = (id, isExtent) ->
  0 <= id <= maxUint64
  /\ (isExtent = true ->
      RegexpExtentFile_MatchString name = true /\ ParseUint name = (id, None)).
Proof.
  unfold parseFileName.
  destruct (RegexpExtentFile_MatchString name); cbn [negb].
  - destruct (ParseUint name) as [v oe] eqn:Ep.
    assert (Hv : 0 <= v <= maxUint64).
    { unfold ParseUint in Ep. destruct name as [|c s].
      - inversion Ep; subst. unfold maxUint64. lia.
      - eapply parseUint_loop_range; [|exact Ep]. unfold maxUint64. lia. }
    destruct oe; intros E; inversion E; subst; (split; [exact Hv|]).
    + discriminate.
    + intros _. split; reflexivity.
  - intros E. inversion E; subst. split; [unfold maxUint64; lia|discriminate].
Qed.


(** ** Capacity accounting and status *)

Lemma sumSizes_exact (fsys : FileSystem) (dir : string) (files : list FileInfo)
    (acc : Z) :
  Forall (fun f => 0 <= actualSize fsys dir f) files ->
  0 <= acc ->
  acc + foldr Z.add 0 (map (actualSize fsys dir) files) <= maxInt64 ->
  sumSizes fsys dir files acc
  = acc + foldr Z.add 0 (map (actualSize fsys dir) files).
Proof.
  unfold sumSizes. revert acc.
  induction files as [|f files IH]; intros acc Hall Hacc Hmax; cbn.
  - lia.
  - apply Forall_cons in Hall. destruct Hall as [Hf Hall]. cbn in Hmax.
    assert (Hnn : 0 <= foldr Z.add 0 (map (actualSize fsys dir) files)).
    { clear - Hall. induction Hall; cbn; lia. }
    rewrite wrap_int64_id
      by (unfold in_int64, minInt64, maxInt64 in *; lia).
    rewrite IH by (try assumption; lia). lia.
Qed.

(** X9. When the window has passed and the directory can be read,
    [computeUsage] sets [used] to the sum of the accounted sizes of the
    files and stamps the time of the scan, as long as no size is negative
    and the sum fits an [int64]. *)
Theorem computeUsage_sums (now_entry now_exit : Z) (fsys : FileSystem) dp
    (files : list FileInfo) :
  IntervalToUpdatePartitionSize
  <= wrap_int64 (now_entry - intervalToUpdatePartitionSize dp) ->
  ioutil_ReadDir fsys (path dp) = inl files ->
  Forall (fun f => 0 <= actualSize fsys (path dp) f) files ->
  foldr Z.add 0 (map (actualSize fsys (path dp)) files) <= maxInt64 ->
  computeUsage now_entry now_exit fsys dp
  = Upd.usage dp (foldr Z.add 0 (map (actualSize fsys (path dp)) files)) now_exit.
Proof.
  intros Hwin Hdir Hall Hmax. unfold computeUsage.
  destruct (_ <? _) eqn:E; [apply Z.ltb_lt in E; lia|].
  rewrite Hdir. f_equal. rewrite sumSizes_exact by (try assumption; lia). lia.
Qed.

(** X10. [statusUpdate] writes three fields only: the used bytes, the
    time of the last scan and the status. Within the window, or when the
    directory cannot be read, the used bytes and the time of the last
    scan stay as they were, so that the next tick scans again. *)
Theorem statusUpdate_frame (now_entry now_exit : Z) (fsys : FileSystem) dp :
  exists u t s,
    statusUpdate now_entry now_exit fsys dp = Upd.status (Upd.usage dp u t) s
    /\ ((wrap_int64 (now_entry - intervalToUpdatePartitionSize dp)
         < IntervalToUpdatePartitionSize
         \/ exists err, ioutil_ReadDir fsys (path dp) = inr err) ->
        u = used dp /\ t = intervalToUpdatePartitionSize dp).
Proof.
  unfold statusUpdate, computeUsage. cbv zeta.
  destruct (_ <? _) eqn:E.
  - exists (used dp), (intervalToUpdatePartitionSize dp). eexists. split.
    + destruct dp; reflexivity.
    + intros _. split; reflexivity.
  - apply Z.ltb_ge in E.
    destruct (ioutil_ReadDir fsys (path dp)) as [files|err] eqn:Ed.
    + eexists _, _, _. split; [reflexivity|].
      intros [Hlt|[err Herr]]; [lia|discriminate].
    + exists (used dp), (intervalToUpdatePartitionSize dp). eexists. split.
      * destruct dp; reflexivity.
      * intros _. split; reflexivity.
Qed.

(** ** Replica refresh: failures *)

(** X11. A refresh that fails demotes the node: past the rate limit, when
    the master request fails or its answer does not decode,
    [updateReplicas] returns the error with [isLeader] cleared, and keeps
    the replicas and the time of the last refresh, so that the next call
    asks the master again. *)
Theorem updateReplicas_failure (now_entry now_exit : Z)
    (request : string -> string + error) dp (err : error) :
  IntervalToUpdateReplica < wrap_int64 (now_entry - intervalToUpdateReplicas dp) ->
  (request (pretty (wrap_int64 (partitionID dp))) = inr err
   \/ exists bufs, request (pretty (wrap_int64 (partitionID dp))) = inl bufs
                   /\ json_Unmarshal_Hosts bufs = inr err) ->
  updateReplicas now_entry now_exit request dp
  = Returns (Upd.leader dp false, Some err).
Proof.
  intros Hrate Hfail. unfold updateReplicas.
  destruct (_ <=? _) eqn:E; [apply Z.leb_le in E; lia|].
  unfold fetchReplicasFromMaster. cbn [Upd.leader partitionID].
  destruct Hfail as [Hr|(bufs & Hr & Hj)].
  - rewrite Hr. reflexivity.
  - rewrite Hr, Hj. reflexivity.
Qed.

(** X12. [updateReplicas] faults in one case only: past the rate limit,
    when the master answers and the answer decodes to a nil response (the
    JSON text [null]), since [response.Hosts] is then read through a nil
    pointer. *)
Theorem updateReplicas_faults_iff (now_entry now_exit : Z)
    (request : string -> string + error) dp :
  (exists msg, updateReplicas now_entry now_exit request dp = Panics msg)
  <-> (IntervalToUpdateReplica < wrap_int64 (now_entry - intervalToUpdateReplicas dp)
       /\ exists bufs,
            request (pretty (wrap_int64 (partitionID dp))) = inl bufs
            /\ json_Unmarshal_Hosts bufs = inl None).
Proof.
  unfold updateReplicas, fetchReplicasFromMaster. cbn [Upd.leader partitionID].
  destruct (_ <=? _) eqn:E.
  - apply Z.leb_le in E. split.
    + intros [msg Hm]. discriminate.
    + intros [Hlt _]. lia.
  - apply Z.leb_gt in E.
    destruct (request _) as [bufs|e] eqn:Er.
    + destruct (json_Unmarshal_Hosts bufs) as [[hosts|]|e] eqn:Ej.
      * split; [intros [msg Hm]; discriminate|].
        intros (_ & b & Hb & Hn). inversion Hb; subst. congruence.
      * split; [|intros _; eexists; reflexivity].
        intros _. split; [exact E|]. exists bufs. split; [reflexivity|exact Ej].
      * split; [intros [msg Hm]; discriminate|].
        intros (_ & b & Hb & Hn). inversion Hb; subst. congruence.
    + split; [intros [msg Hm]; discriminate|].
      intros (_ & b & Hb & _). discriminate.
Qed.


(** ** Launching a repair *)

Lemma LaunchRepair_launched (now_entry now_exit : Z)
    (request : string -> string + error) (extentType k : ExtentType) dp dp' :
  LaunchRepair now_entry now_exit request extentType dp = Returns (dp', Some k) ->
  k = extentType
  /\ partitionStatus dp <> Unavailable
  /\ isLeader dp' = true
  /\ exists dp1,
       updateReplicas now_entry now_exit request dp = Returns (dp1, None)
       /\ isLeader dp1 = true
       /\ dp' = Upd.stopped dp1 (stopC dp1)
                  (if BrokenTinyExtentCnt (extentStore dp1) =? 0
                   then MoveAllToBrokenTinyExtentC (extentStore dp1)
                          MinTinyExtentsToRepair
                   else extentStore dp1)
                  (raftPartition dp1).
Proof.
  unfold LaunchRepair.
  destruct (partitionStatus dp =? Unavailable) eqn:Es; [intros E; inversion E|].
  apply Z.eqb_neq in Es.
  destruct (updateReplicas now_entry now_exit request dp) as [[dp1 [e|]]|msg];
    try (intros E; inversion E; fail).
  destruct (isLeader dp1) eqn:El; cbn [negb]; intros E; inversion E; subst.
  repeat split; try assumption.
  exists dp1. repeat split. exact El.
Qed.

(** X13. [LaunchRepair] calls [repair] only on behalf of the leader:
    when it does, the partition is not [Unavailable], the replica refresh
    returned no error and [isLeader] holds, and the kind is the one
    asked for. On an [Unavailable] partition it returns at once: the
    master is not asked and the partition is left as it is. *)
Theorem LaunchRepair_leader_only (now_entry now_exit : Z)
    (request : string -> string + error) (extentType : ExtentType) dp :
  (partitionStatus dp = Unavailable ->
   LaunchRepair now_entry now_exit request extentType dp = Returns (dp, None))
  /\ (forall dp' k,
        LaunchRepair now_entry now_exit request extentType dp = Returns (dp', Some k) ->
        k = extentType
        /\ partitionStatus dp <> Unavailable
        /\ isLeader dp' = true
        /\ exists dp1,
             updateReplicas now_entry now_exit request dp = Returns (dp1, None)).
Proof.
  split.
  - intros Hs. unfold LaunchRepair. rewrite Hs, Z.eqb_refl. reflexivity.
  - intros dp' k Hl. apply LaunchRepair_launched in Hl.
    destruct Hl as (Hk & Hs & Hlead & dp1 & Hu & _).
    repeat split; try assumption. exists dp1. exact Hu.
Qed.

(** ** The scheduler *)

Lemma mainTick_index (inp : TickInput) (sch sch' : Scheduler Store File)
    (launched : option ExtentType) :
  0 <= index sch < MaxUint32 ->
  mainTick inp sch = Returns (sch', launched) ->
  index sch' = (index sch + 1) mod MaxUint32.
Proof.
  intros Hi. unfold mainTick. cbv zeta.
  rewrite wrap_int64_id
    by (unfold in_int64, minInt64, maxInt64, MaxUint32 in *; lia).
  destruct (LaunchRepair _ _ _ _ _) as [[dp l]|msg]; intros E; inversion E; subst.
  cbn [index]. unfold MaxUint32 in *.
  destruct (_ <=? _) eqn:Ew.
  - apply Z.leb_le in Ew. replace (index sch + 1) with 4294967295 by lia.
    reflexivity.
  - apply Z.leb_gt in Ew. rewrite Z.mod_small by lia. reflexivity.
Qed.

(** X14. A main tick of the scheduler advances [index] by one modulo
    [MaxUint32]; when it launches a repair, the kind is the tiny one iff
    the new index is even, and the partition is leader. *)
Theorem mainTick_kind (inp : TickInput) (sch sch' : Scheduler Store File)
    (launched : option ExtentType) :
  0 <= index sch < MaxUint32 ->
  mainTick inp sch = Returns (sch', launched) ->
  index sch' = (index sch + 1) mod MaxUint32
  /\ forall k, launched = Some k ->
       (k = TinyExtentType <-> Z.even (index sch') = true)
       /\ isLeader (part sch') = true.
Proof.
  intros Hi Ht. split; [eapply mainTick_index; eassumption|].
  pose proof (mainTick_index _ _ _ _ Hi Ht) as Hidx.
  intros k ->. revert Ht. unfold mainTick. cbv zeta.
  destruct (LaunchRepair _ _ _ _ _) as [[dp l]|msg] eqn:El;
    intros E; inversion E; subst.
  apply LaunchRepair_launched in El. destruct El as (Hk & _ & Hlead & _).
  cbn [index part] in *. split; [|exact Hlead].
  set (i := if MaxUint32 <=? wrap_int64 (index sch + 1) then 0
            else wrap_int64 (index sch + 1)) in *.
  assert (Hi0 : 0 <= i).
  { rewrite Hidx. apply Z.mod_pos_bound. unfold MaxUint32. lia. }
  rewrite Z.rem_mod_nonneg in Hk by lia.
  rewrite Zeven.Zeven_bool_iff, Zeven.Zeven_ex_iff.
  destruct (i mod 2 =? 0) eqn:Em.
  - apply Z.eqb_eq in Em. split; [intros _|intros _; exact Hk].
    exists (i / 2). pose proof (Z.div_mod i 2 ltac:(lia)). lia.
  - apply Z.eqb_neq in Em. split; [intros Hc; rewrite Hc in Hk; discriminate|].
    intros [m Hm]. exfalso. apply Em. rewrite Hm.
    rewrite Z.mul_comm. apply Z.mod_mul. lia.
Qed.

(** X15. After [n] main ticks from an index below [MaxUint32], the index
    is the first index plus [n], modulo [MaxUint32]: it counts the ticks
    and falls back to 0 instead of reaching [MaxUint32]. *)
Theorem runTicks_index (inputs : list TickInput) (sch sch' : Scheduler Store File) :
  0 <= index sch < MaxUint32 ->
  runTicks inputs sch = Returns sch' ->
  index sch' = (index sch + Z.of_nat (length inputs)) mod MaxUint32.
Proof.
  revert sch. induction inputs as [|inp rest IH]; intros sch Hi; cbn [runTicks length].
  - intros E. inversion E; subst. rewrite Z.add_0_r.
    symmetry. apply Z.mod_small. exact Hi.
  - destruct (mainTick inp sch) as [[sch1 l]|msg] eqn:Et; [|intros E; inversion E].
    pose proof (mainTick_index _ _ _ _ Hi Et) as H1.
    assert (Hi1 : 0 <= index sch1 < MaxUint32).
    { rewrite H1. apply Z.mod_pos_bound. unfold MaxUint32. lia. }
    intros Hr. rewrite (IH sch1 Hi1 Hr), H1.
    rewrite Zplus_mod_idemp_l. f_equal. lia.
Qed.

(** ** Raft leadership *)

(** X16. [IsRaftLeader] with a consensus partition and a leader id other
    than 0: [ok] says whether the leader is this node; the address is that
    of the peer with the leader id when the ids of the peers are distinct,
    and is empty when no peer has it, also when [ok] is true. Without a
    consensus partition or a leader the answer is the empty address and
    false. *)
Theorem IsRaftLeader_addr (leaderID term : Z) dp :
  (raftPartition dp = raft_absent \/ leaderID = 0 ->
   IsRaftLeader (leaderID, term) dp = (EmptyString, false))
  /\ (raftPartition dp <> raft_absent -> leaderID <> 0 ->
      snd (IsRaftLeader (leaderID, term) dp) = (leaderID =? NodeID (config dp))
      /\ (forall addr,
            In (mkPeer leaderID addr) (cfgPeers (config dp)) ->
            List.NoDup (map ID (cfgPeers (config dp))) ->
            fst (IsRaftLeader (leaderID, term) dp) = addr)
      /\ ((forall p, In p (cfgPeers (config dp)) -> ID p <> leaderID) ->
          fst (IsRaftLeader (leaderID, term) dp) = EmptyString)).
Proof.
  unfold IsRaftLeader. split.
  - intros [Hr|Hl].
    + rewrite Hr. reflexivity.
    + subst leaderID. destruct (raftPartition dp); reflexivity.
  - intros Hr Hl. apply Z.eqb_neq in Hl.
    assert (Hgen :
      forall peers,
        let r := (fix scan (peers : list Peer) : string * bool :=
                    match peers with
                    | [] => (EmptyString, leaderID =? NodeID (config dp))
                    | peer :: rest =>
                        if leaderID =? ID peer
                        then (Addr peer, leaderID =? NodeID (config dp))
                        else scan rest
                    end) peers in
        snd r = (leaderID =? NodeID (config dp))
        /\ (forall addr, In (mkPeer leaderID addr) peers ->
              List.NoDup (map ID peers) -> fst r = addr)
        /\ ((forall p, In p peers -> ID p <> leaderID) -> fst r = EmptyString)).
    { induction peers as [|p peers IH]; cbv zeta.
      - split; [reflexivity|]. split; [intros addr []|reflexivity].
      - destruct IH as (IH1 & IH2 & IH3).
        destruct (leaderID =? ID p) eqn:E.
        + apply Z.eqb_eq in E. split; [reflexivity|]. split.
          * intros addr Hin Hnd. cbn [fst].
            destruct Hin as [Hp|Hin]; [subst p; reflexivity|].
            exfalso. cbn in Hnd. apply List.NoDup_cons_iff in Hnd.
            destruct Hnd as [Hnotin _]. apply Hnotin. rewrite <- E.
            change leaderID with (ID (mkPeer leaderID addr)).
            apply in_map. exact Hin.
          * intros Hnone. exfalso. apply (Hnone p); [left; reflexivity|].
            symmetry. exact E.
        + apply Z.eqb_neq in E. split; [exact IH1|]. split.
          * intros addr Hin Hnd. apply IH2.
            -- destruct Hin as [Hp|Hin]; [subst p; cbn in E; congruence|exact Hin].
            -- cbn in Hnd. apply List.NoDup_cons_iff in Hnd. tauto.
          * intros Hnone. apply IH3. intros q Hq. apply Hnone. right. exact Hq. }
    destruct (raftPartition dp); [contradiction|..]; rewrite Hl; apply Hgen.
Qed.


(** ** Repair: what the first loop appends *)

Lemma createOne_appends (l : list ExtentInfo) (store : Store) (r : list ExtentInfo) :
  exists sub,
    sublist sub l
    /\ Forall (fun e => IsTinyExtent (FileID e) = false) sub
    /\ snd (fold_left createOne l (store, r)) = (r ++ map repairInfo sub)%list.
Proof.
  revert store r. induction l as [|e l IH]; intros store r; cbn [fold_left].
  - exists []. repeat split; [constructor|constructor|].
    cbn. symmetry. apply app_nil_r.
  - unfold createOne at 2.
    destruct (IsTinyExtent (FileID e)) eqn:Et.
    + destruct (IH store r) as (sub & Hs & Hf & He).
      exists sub. repeat split; [apply sublist_cons, Hs|exact Hf|exact He].
    + assert (Hkeep : forall s1,
                exists sub, sublist sub (e :: l)
                  /\ Forall (fun e => IsTinyExtent (FileID e) = false) sub
                  /\ snd (fold_left createOne l (s1, (r ++ [repairInfo e])%list))
                     = (r ++ map repairInfo sub)%list).
      { intros s1. destruct (IH s1 (r ++ [repairInfo e])%list) as (sub & Hs & Hf & He).
        exists (e :: sub). repeat split.
        - apply sublist_skip, Hs.
        - constructor; assumption.
        - rewrite He, <- app_assoc. reflexivity. }
      assert (Hdrop : forall s1,
                exists sub, sublist sub (e :: l)
                  /\ Forall (fun e => IsTinyExtent (FileID e) = false) sub
                  /\ snd (fold_left createOne l (s1, r))
                     = (r ++ map repairInfo sub)%list).
      { intros s1. destruct (IH s1 r) as (sub & Hs & Hf & He).
        exists sub. repeat split; [apply sublist_cons, Hs|exact Hf|exact He]. }
      destruct (HasExtent store (wrap_uint64 (FileID e))); [apply Hkeep|].
      destruct (Create store (wrap_uint64 (FileID e)) (Inode e)) as [s1 [err|]];
        [apply Hdrop|apply Hkeep].
Qed.

(** X17. The first loop of [DoExtentStoreRepair] only appends: the
    entries that [ExtentsToBeRepaired] held stay in front, in their
    order; what follows are descriptors of entries of
    [ExtentsToBeCreated] that are not tiny, in the order of that list and
    each at most once, with source, id and size of the entry and the
    inode left at zero. [ExtentsToBeCreated] itself is not changed. *)
Theorem createExtents_appends (store : Store) (repairTask : DataPartitionRepairTask) :
  exists sub,
    sublist sub (ExtentsToBeCreated repairTask)
    /\ Forall (fun e => IsTinyExtent (FileID e) = false) sub
    /\ snd (createExtents store repairTask)
       = mkTask (ExtentsToBeCreated repairTask)
           (ExtentsToBeRepaired repairTask ++ map repairInfo sub).
Proof.
  unfold createExtents.
  destruct (createOne_appends (ExtentsToBeCreated repairTask) store
              (ExtentsToBeRepaired repairTask)) as (sub & Hs & Hf & He).
  exists sub. repeat split; [exact Hs|exact Hf|].
  destruct (fold_left createOne _ _) as [s r]. cbn [snd] in *. rewrite He.
  reflexivity.
Qed.

(** X18. When every entry of [ExtentsToBeCreated] is tiny or names an
    extent that the store holds, the first loop of [DoExtentStoreRepair]
    leaves the store as it is and appends exactly the entries that are
    not tiny. *)
Theorem createExtents_nothing_missing (store : Store)
    (repairTask : DataPartitionRepairTask) :
  Forall (fun e => IsTinyExtent (FileID e) = true
                   \/ HasExtent store (wrap_uint64 (FileID e)) = true)
         (ExtentsToBeCreated repairTask) ->
  createExtents store repairTask
  = (store,
     mkTask (ExtentsToBeCreated repairTask)
       (ExtentsToBeRepaired repairTask
        ++ map repairInfo
             (List.filter (fun e => negb (IsTinyExtent (FileID e)))
                (ExtentsToBeCreated repairTask)))).
Proof.
  unfold createExtents. intros Hall.
  assert (Hgen : forall l r,
            Forall (fun e => IsTinyExtent (FileID e) = true
                             \/ HasExtent store (wrap_uint64 (FileID e)) = true) l ->
            fold_left createOne l (store, r)
            = (store,
               (r ++ map repairInfo
                       (List.filter (fun e => negb (IsTinyExtent (FileID e))) l))%list)).
  { induction l as [|e l IH]; intros r Hl; cbn [fold_left List.filter map].
    - rewrite app_nil_r. reflexivity.
    - apply Forall_cons in Hl. destruct Hl as [He Hl].
      unfold createOne at 2.
      destruct (IsTinyExtent (FileID e)) eqn:Et; cbn [negb].
      + apply IH, Hl.
      + destruct He as [He|He]; [discriminate|]. rewrite He.
        rewrite IH by exact Hl. cbn [map]. rewrite <- app_assoc. reflexivity. }
  rewrite Hgen by exact Hall. reflexivity.
Qed.

(** ** Repair: the dispatch loop goes on *)

Lemma repair_shape (s0 s : RepairState Store) :
  loc s0 = AtLoop -> inflight s0 = 0 ->
  repair_reachable s0 s ->
  0 <= inflight s
  /\ (loc s = AtFinalWait \/ loc s = Returned -> pending s = []).
Proof.
  intros Hl0 Hn0 Hreach. unfold repair_reachable in Hreach.
  revert s Hreach. apply rtc_ind_r.
  - rewrite Hl0, Hn0. split; [lia|]. intros [E|E]; discriminate.
  - intros y z _ Hstep [Hn Hp].
    destruct Hstep as [e rest ri n st Hh | e rest ri n st Hh | rest ri st
                      | ri n st | ri st | rest ri n st l Hpos | rest ri n st st' l];
      cbn [inflight loc pending] in *; (split; [lia|]).
    + intros [E|E]; discriminate.
    + destruct (_ =? 0); intros [E|E]; discriminate.
    + intros [E|E]; discriminate.
    + intros _. reflexivity.
    + intros _. reflexivity.
    + exact Hp.
    + exact Hp.
Qed.

Lemma repair_drain (rest : list ExtentInfo) (ri n : Z) (st : Store) (l : Loc) :
  0 <= n ->
  rtc repair_step (mkRS rest ri n st l) (mkRS rest ri 0 st l).
Proof.
  intros Hn. remember (Z.to_nat n) as k eqn:Hk. revert n Hn Hk.
  induction k as [|k IH]; intros n Hn Hk.
  - replace n with 0 by lia. apply rtc_refl.
  - eapply rtc_l; [apply step_worker_done; lia|]. apply IH; lia.
Qed.

(** X19. The dispatch loop of [DoExtentStoreRepair] cannot get stuck:
    from every state that an execution reaches, the function can still
    return with no worker in flight, once the workers in flight have
    finished. *)
Theorem repair_no_deadlock (store : Store) (repairTask : DataPartitionRepairTask)
    (s : RepairState Store) :
  repair_reachable (DoExtentStoreRepair store repairTask) s ->
  exists s', repair_reachable s s' /\ loc s' = Returned /\ inflight s' = 0.
Proof.
  intros Hreach. apply repair_shape in Hreach.
  2,3: unfold DoExtentStoreRepair; destruct (createExtents _ _); reflexivity.
  destruct Hreach as [Hn Hp]. unfold repair_reachable.
  destruct s as [rest ri n st l]. cbn [inflight loc pending] in *.
  pose proof (repair_drain rest ri n st l Hn) as Hd.
  destruct l.
  - destruct (repair_can_return rest ri st) as [ri' Hr].
    exists (mkRS [] ri' 0 st Returned). split; [|split; reflexivity].
    etrans; [exact Hd|exact Hr].
  - destruct (repair_can_return rest ri st) as [ri' Hr].
    exists (mkRS [] ri' 0 st Returned). split; [|split; reflexivity].
    etrans; [exact Hd|]. eapply rtc_l; [apply step_barrier|]. exact Hr.
  - rewrite (Hp (or_introl eq_refl)) in *.
    exists (mkRS [] ri 0 st Returned). split; [|split; reflexivity].
    etrans; [exact Hd|]. apply rtc_once. apply step_return.
  - exists (mkRS rest ri 0 st Returned). split; [exact Hd|]. split; reflexivity.
Qed.

(** X20. [DoExtentStoreRepair] starts at most one worker for each entry
    of the augmented repair list: in every state that an execution
    reaches, [recoverIndex] plus the entries still to visit is at most
    the number of entries of the two lists of the task, as long as that
    number fits an [int]. *)
Theorem repair_dispatch_count (store : Store) (repairTask : DataPartitionRepairTask)
    (s : RepairState Store) :
  Z.of_nat (length (ExtentsToBeCreated repairTask)
            + length (ExtentsToBeRepaired repairTask)) <= maxInt64 ->
  repair_reachable (DoExtentStoreRepair store repairTask) s ->
  0 <= recoverIndex s
  /\ recoverIndex s + Z.of_nat (length (pending s))
     <= Z.of_nat (length (ExtentsToBeCreated repairTask)
                  + length (ExtentsToBeRepaired repairTask)).
Proof.
  intros Hmax Hreach. unfold repair_reachable in Hreach.
  revert s Hreach. apply rtc_ind_r.
  - unfold DoExtentStoreRepair, createExtents.
    pose proof (createOne_length (ExtentsToBeCreated repairTask) store
                  (ExtentsToBeRepaired repairTask)) as Hl.
    destruct (fold_left createOne _ _) as [s r]. cbn in *. lia.
  - intros y z _ Hstep [H0 Hle].
    destruct Hstep; cbn [recoverIndex pending length] in *; try (split; lia).
    rewrite wrap_int64_id
      by (unfold in_int64, minInt64, maxInt64 in *; lia).
    split; lia.
Qed.


(** ** The directory of a partition *)

Lemma pretty_N_char_is_digit (y : N) : is_digit (pretty_N_char y) = true.
Proof. unfold pretty_N_char. repeat case_match; reflexivity. Qed.

Lemma pretty_N_go_no_underscore (x : N) (s : string) :
  has_byte "_" s = false -> has_byte "_" (pretty_N_go x s) = false.
Proof.
  revert s. induction (N.lt_wf_0 x) as [x _ IH]; intros s Hs.
  destruct (N.eq_dec x 0%N) as [->|Hx].
  - rewrite pretty_N_go_0. exact Hs.
  - rewrite pretty_N_go_step by lia. apply IH; [apply N.div_lt; lia|].
    cbn [has_byte]. rewrite Hs, orb_false_r.
    pose proof (pretty_N_char_is_digit (x `mod` 10)) as Hd.
    destruct (Ascii.eqb _ _) eqn:E; [|reflexivity].
    apply Ascii.eqb_eq in E. rewrite E in Hd. discriminate.
Qed.

Lemma pretty_Z_no_underscore (z : Z) : has_byte "_" (pretty z) = false.
Proof.
  destruct z as [|p|p]; [reflexivity|..].
  - change (pretty (Z.pos p)) with (pretty_N_go (N.pos p) EmptyString).
    apply pretty_N_go_no_underscore. reflexivity.
  - change (pretty (Z.neg p))
      with (String "-" (pretty_N_go (N.pos p) EmptyString)).
    cbn [has_byte]. rewrite pretty_N_go_no_underscore by reflexivity. reflexivity.
Qed.

Lemma append_underscore_inj (a a' b b' : string) :
  has_byte "_" a = false -> has_byte "_" a' = false ->
  a +:+ String "_" b = a' +:+ String "_" b' -> a = a' /\ b = b'.
Proof.
  revert a'. induction a as [|c a IH]; intros [|c' a'] Ha Ha'.
  - intros E. injection E as E. split; [reflexivity|exact E].
  - rewrite append_cons. intros E. injection E as Ec E. subst c'.
    cbn in Ha'. discriminate.
  - rewrite append_cons. intros E. injection E as Ec E. subst c.
    cbn in Ha. discriminate.
  - rewrite !append_cons. intros E. injection E as Ec E. subst c'.
    cbn [has_byte] in Ha, Ha'.
    apply orb_false_iff in Ha. apply orb_false_iff in Ha'.
    destruct (IH a' (proj2 Ha) (proj2 Ha') E) as [-> ->]. split; reflexivity.
Qed.

Lemma path_Join_inj (dir x y : string) : path_Join dir x = path_Join dir y -> x = y.
Proof.
  unfold path_Join. induction dir as [|c dir IH].
  - intros E. injection E as E. exact E.
  - rewrite !append_cons. intros E. injection E as E. exact (IH E).
Qed.

(** X21. Partitions of one disk that differ in id or in size get
    different directories: when [newDataPartition] gives two partitions
    of the same disk the same path, their configurations have the same
    partition id and the same partition size. *)
Theorem newDataPartition_path_inj (cfgA cfgB : dataPartitionCfg) (d : Disk)
    (dpA dpB : DataPartition Store) :
  newDataPartition cfgA d = inl dpA ->
  newDataPartition cfgB d = inl dpB ->
  path dpA = path dpB ->
  cfgPartitionID cfgA = cfgPartitionID cfgB
  /\ cfgPartitionSize cfgA = cfgPartitionSize cfgB.
Proof.
  intros HA HB Hp.
  apply newDataPartition_inv in HA. apply newDataPartition_inv in HB.
  destruct HA as (_ & _ & _ & HiA & HzA & HpA & _).
  destruct HB as (_ & _ & _ & HiB & HzB & HpB & _).
  rewrite HpA, HpB in Hp. apply path_Join_inj in Hp.
  unfold partitionName in Hp. rewrite HiA, HzA, HiB, HzB in Hp.
  unfold DataPartitionPrefix in Hp.
  change ("datapartition" +:+ "_" +:+ ?x) with ("datapartition_" +:+ x) in Hp.
  assert (Hstrip : forall x y : string,
            "datapartition_" +:+ x = "datapartition_" +:+ y -> x = y).
  { intros x y E. repeat (rewrite !append_cons in E; injection E as E). exact E. }
  apply Hstrip in Hp.
  apply append_underscore_inj in Hp; try apply pretty_Z_no_underscore.
  destruct Hp as [Hid Hsz]. split; eapply pretty_Z_inj; eassumption.
Qed.


End MoreFacts.

(** ** The concrete environment meets what is asked of it *)

Lemma insert_peer_perm (p : Peer) (l : list Peer) :
  Permutation (Sample.insert_peer p l) (p :: l).
Proof.
  induction l as [|q l IH]; cbn; [reflexivity|].
  destruct (Less q p); [|reflexivity].
  rewrite IH. apply perm_swap.
Qed.

Lemma insertion_sort_perm (l : list Peer) : Permutation (Sample.insertion_sort l) l.
Proof.
  induction l as [|p l IH]; cbn; [reflexivity|].
  rewrite insert_peer_perm. apply perm_skip, IH.
Qed.

Lemma insert_peer_sorted (p : Peer) (l : list Peer) :
  StronglySorted (fun a b => ID a <= ID b) l ->
  StronglySorted (fun a b => ID a <= ID b) (Sample.insert_peer p l).
Proof.
  induction l as [|q l IH]; cbn; intros Hs.
  - constructor; constructor.
  - apply StronglySorted_inv in Hs. destruct Hs as [Hs Hq].
    unfold Less. destruct (ID q <? ID p) eqn:E.
    + apply Z.ltb_lt in E. constructor; [apply IH, Hs|].
      rewrite insert_peer_perm. constructor; [lia|exact Hq].
    + apply Z.ltb_ge in E. constructor; [constructor; assumption|].
      constructor; [exact E|].
      eapply Forall_impl; [exact Hq|]. cbn. intros a Ha. lia.
Qed.

Lemma insertion_sort_sorted (l : list Peer) :
  StronglySorted (fun a b => ID a <= ID b) (Sample.insertion_sort l).
Proof.
  induction l as [|p l IH]; cbn; [constructor|].
  apply insert_peer_sorted, IH.
Qed.

Lemma sample_sorts : @SortSorts Sample.ext.
Proof.
  split; [exact insertion_sort_perm|exact insertion_sort_sorted].
Qed.

(** ** The code on concrete inputs *)

#[local] Existing Instance Sample.ext.
#[local] Existing Instance Sample.api.

(** Creating the scenario partition at [created_at] writes the peers in
    the order 1, 2, 3 and stamps the descriptor with [created_at]. *)
Example create_scenario :
  CreateDataPartition Scenario.created_at no_faults ∅ Scenario.cfg Scenario.dsk
  = ({[ metaFile Scenario.settled
        := Sample.marshal_plain (Scenario.descriptor Scenario.created_at) ]},
     Some Scenario.settled, None).
Proof. vm_compute. reflexivity. Qed.

Example create_scenario_peers :
  map ID (Peers (Scenario.descriptor Scenario.created_at)) = [1; 2; 3].
Proof. reflexivity. Qed.

(** The capacity scenario: [100 + 10 MiB + 8192 * 512]. *)
Example usage_scenario :
  used (computeUsage 1000 1001 Scenario.fsys Scenario.fresh)
  = 100 + 10 * 1024 * 1024 + 8192 * 512.
Proof. vm_compute. reflexivity. Qed.

(** The repair scenario: the tiny extent is skipped, the held extent and
    the created one reach the repair list, the refused one does not. *)
Example repair_scenario :
  createExtents Scenario.store0 Scenario.task
  = (Sample.mkMem [2000; 3000] [4000] false,
     mkTask (ExtentsToBeCreated Scenario.task)
       [mkExtentInfo 2000 0 200 "h1:9000"; mkExtentInfo 3000 0 300 "h1:9000"]).
Proof. vm_compute. reflexivity. Qed.

Example validate_blank_volume :
  snd (Validate (mkMeta "  " 7 1024 EmptyString [])) = Some (NewError "illegal data partition metadata")
  /\ snd (Validate (mkMeta " v1 " 7 1024 EmptyString [])) = None
  /\ snd (Validate (mkMeta "v1" 0 1024 EmptyString [])) = Some (NewError "illegal data partition metadata")
  /\ snd (Validate (mkMeta "v1" 7 0 EmptyString [])) = Some (NewError "illegal data partition metadata").
Proof. vm_compute. repeat split. Qed.

(** The leader scenario: the node is leader when its address comes first
    in the hosts of the master and is not when it comes second. *)
Example leader_first :
  updateReplicas 1000 1001 (fun _ => inl "10.0.0.1:6000,10.0.0.2:6000") Scenario.fresh
  = Returns (Upd.refreshed Scenario.fresh true ["10.0.0.1:6000"; "10.0.0.2:6000"] 1001,
             None).
Proof. vm_compute. reflexivity. Qed.

Example leader_second :
  updateReplicas 1000 1001 (fun _ => inl "10.0.0.2:6000,10.0.0.1:6000") Scenario.fresh
  = Returns (Upd.refreshed Scenario.fresh false ["10.0.0.2:6000"; "10.0.0.1:6000"] 1001,
             None).
Proof. vm_compute. reflexivity. Qed.

(** Within the rate limit nothing is asked and nothing changes. *)
Example refresh_rate_limited :
  updateReplicas 600 601 (fun _ => inl "10.0.0.1:6000") Scenario.fresh
  = Returns (Scenario.fresh, None).
Proof. vm_compute. reflexivity. Qed.

(** After the first [Stop] the store is closed and the channel too. *)
Example stop_once :
  Stop Scenario.fresh
  = Returns (Upd.stopped Scenario.fresh chan_closed (Sample.mkMem [] [] true) raft_absent).
Proof. vm_compute. reflexivity. Qed.


(** ** The theorems at concrete inputs *)

Lemma Stop_twice_panics_witness :
  exists dp1,
    Stop Scenario.fresh = Returns dp1
    /\ stopC dp1 = chan_closed
    /\ Stop dp1 = Panics "close of closed channel".
Proof.
  apply (Stop_twice_panics Scenario.cfg Scenario.dsk Scenario.fresh).
  vm_compute. reflexivity.
Defined.

(** The claim of C2 fails: the partition is created on 1 August, its
    descriptor is persisted again on 2 August, and [META] then carries the
    second date. *)
Lemma create_time_rewritten : ~ create_time_kept.
Proof.
  intros H.
  specialize
    (H Scenario.created_at Scenario.persisted_at no_faults no_faults ∅
       Scenario.cfg Scenario.dsk
       {[ metaFile Scenario.settled
          := Sample.marshal_plain (Scenario.descriptor Scenario.created_at) ]}
       {[ metaFile Scenario.settled
          := Sample.marshal_plain (Scenario.descriptor Scenario.persisted_at) ]}
       Scenario.settled Scenario.settled
       (Scenario.descriptor Scenario.created_at)
       (Scenario.descriptor Scenario.persisted_at)).
  assert (E : CreateTime (Scenario.descriptor Scenario.persisted_at)
              = CreateTime (Scenario.descriptor Scenario.created_at)).
  { apply H; vm_compute; reflexivity. }
  vm_compute in E. discriminate E.
Qed.

Lemma PersistMetadata_stamps_now_witness :
  exists md,
    fst (fst (PersistMetadata Scenario.persisted_at no_faults ∅ Scenario.fresh))
      !! metaFile Scenario.fresh = Some (json_Marshal md)
    /\ md = metadataOf Scenario.persisted_at (config Scenario.settled)
    /\ CreateTime md = Format_TimeLayout Scenario.persisted_at.
Proof.
  apply (PersistMetadata_stamps_now Scenario.persisted_at no_faults ∅
           (fst (fst (PersistMetadata Scenario.persisted_at no_faults ∅ Scenario.fresh)))
           Scenario.fresh Scenario.settled).
  - vm_compute. reflexivity.
  - vm_compute. reflexivity.
Defined.

Lemma statusUpdate_min_witness :
  partitionStatus (statusUpdate 1000 1001 Scenario.fsys Scenario.fresh) = ReadWrite.
Proof.
  etransitivity.
  - apply (statusUpdate_min 1000 1001 Scenario.fsys Scenario.fresh StReadWrite).
    + cbn. lia.
    + cbn. lia.
    + cbn. lia.
    + reflexivity.
  - vm_compute. reflexivity.
Defined.

Lemma createExtents_augments_witness :
  augments Scenario.store0 (ExtentsToBeCreated Scenario.task) []
    (Sample.mkMem [2000; 3000] [4000] false)
    [mkExtentInfo 2000 0 200 "h1:9000"; mkExtentInfo 3000 0 300 "h1:9000"].
Proof.
  apply (proj2 (createExtents_augments Scenario.store0 Scenario.task _ _)).
  vm_compute. reflexivity.
Defined.

Lemma actualSize_billing_witness :
  actualSize Scenario.fsys (path Scenario.fresh) (mkFileInfo "2048" 10485760) = 10485760
  /\ actualSize Scenario.fsys (path Scenario.fresh) (mkFileInfo "3" 134217728)
     = 8192 * 512.
Proof.
  split.
  - apply (proj1 (actualSize_billing Scenario.fsys (path Scenario.fresh)
                    (mkFileInfo "2048" 10485760))).
    vm_compute. reflexivity.
  - apply (proj2 (actualSize_billing Scenario.fsys (path Scenario.fresh)
                    (mkFileInfo "3" 134217728)) (mkStat 8192)).
    + vm_compute. reflexivity.
    + vm_compute. reflexivity.
    + unfold in_int64, minInt64, maxInt64. cbn. lia.
Defined.

Lemma PersistMetadata_stale_temp_witness :
  exists content,
    fst (fst (PersistMetadata Scenario.persisted_at no_faults Scenario.stale_files
                Scenario.settled))
      !! metaFile Scenario.settled = Some content
    /\ String.length content = String.length Scenario.leftover
    /\ content
       <> json_Marshal (metadataOf Scenario.persisted_at (config Scenario.settled)).
Proof.
  apply (PersistMetadata_stale_temp Scenario.persisted_at no_faults
           Scenario.stale_files
           (fst (fst (PersistMetadata Scenario.persisted_at no_faults
                        Scenario.stale_files Scenario.settled)))
           Scenario.settled Scenario.settled Scenario.leftover).
  - vm_compute. reflexivity.
  - vm_compute. lia.
  - vm_compute. reflexivity.
Defined.

Lemma Validate_rejects_iff_witness :
  is_Some (snd (Validate (mkMeta "  " 7 1024 EmptyString []))).
Proof.
  apply (proj1 (Validate_rejects_iff (mkMeta "  " 7 1024 EmptyString []))).
  left. vm_compute. reflexivity.
Defined.

Lemma updateReplicas_isLeader_witness :
  exists dp',
    updateReplicas 1000 1001 Scenario.master Scenario.fresh = Returns (dp', None)
    /\ replicas dp' = ["10.0.0.1:6000"; "10.0.0.2:6000"]
    /\ (isLeader dp' = true <->
          exists host0 rest,
            ["10.0.0.1:6000"; "10.0.0.2:6000"] = host0 :: rest
            /\ hostPortion host0 = Some LocalIP).
Proof.
  apply (updateReplicas_isLeader 1000 1001 Scenario.master Scenario.fresh
           "10.0.0.1:6000,10.0.0.2:6000" ["10.0.0.1:6000"; "10.0.0.2:6000"]).
  - vm_compute. reflexivity.
  - vm_compute. reflexivity.
  - vm_compute. reflexivity.
Defined.

Lemma repair_bounded_fanout_witness :
  0 <= 1 <= NumOfFilesToRecoverInParallel
  /\ (AtLoop = Returned -> 1 = 0).
Proof.
  apply (repair_bounded_fanout Scenario.store0 Scenario.task
           (mkRS [mkExtentInfo 3000 0 300 "h1:9000"] 1 1
              (Sample.mkMem [2000; 3000] [4000] false) AtLoop)).
  - cbn. lia.
  - vm_compute. discriminate.
  - apply rtc_once.
    exact (step_dispatch (mkExtentInfo 2000 0 200 "h1:9000")
             [mkExtentInfo 3000 0 300 "h1:9000"] 0 0
             (Sample.mkMem [2000; 3000] [4000] false) eq_refl).
Defined.

Lemma actualSize_stat_error_witness :
  actualSize Scenario.fsys (path Scenario.fresh) (mkFileInfo "4" 4096) = 4096
  /\ forall files acc,
       sumSizes Scenario.fsys (path Scenario.fresh) (files ++ [mkFileInfo "4" 4096]) acc
       = wrap_int64 (sumSizes Scenario.fsys (path Scenario.fresh) files acc + 4096).
Proof.
  apply (actualSize_stat_error Scenario.fsys (path Scenario.fresh)
           (mkFileInfo "4" 4096) (NewError "no such file or directory")).
  - vm_compute. reflexivity.
  - vm_compute. reflexivity.
Defined.

(** ** The further theorems at concrete inputs *)

#[local] Existing Instance SampleMore.maint.
#[local] Existing Instance SampleMore.decoder.
#[local] Existing Instance sample_sorts.

Lemma PersistMetadata_frame_witness :
  fst (fst (PersistMetadata Scenario.persisted_at no_faults
              {[ "/data/datapartition_8_1024/META" := "other" ]} Scenario.fresh))
    !! "/data/datapartition_8_1024/META"
  = ({[ "/data/datapartition_8_1024/META" := "other" ]} : gmap string string)
      !! "/data/datapartition_8_1024/META".
Proof.
  apply (PersistMetadata_frame Scenario.persisted_at no_faults
           {[ "/data/datapartition_8_1024/META" := "other" ]} Scenario.fresh).
  - vm_compute. discriminate.
  - vm_compute. discriminate.
Defined.

Lemma PersistMetadata_error_keeps_META_witness :
  let io := mkPersistIO None None (Some (NewError "rename failed")) false in
  let files' :=
    fst (fst (PersistMetadata Scenario.persisted_at io SampleMore.created_files
                Scenario.settled)) in
  files' !! metaFile Scenario.settled
  = SampleMore.created_files !! metaFile Scenario.settled
  /\ (open_err io = None -> remove_fails io = false ->
      files' !! tempFile Scenario.settled = None).
Proof.
  apply (PersistMetadata_error_keeps_META Scenario.persisted_at
           (mkPersistIO None None (Some (NewError "rename failed")) false)
           SampleMore.created_files _ Scenario.settled Scenario.settled
           (NewError "rename failed")).
  vm_compute. reflexivity.
Defined.

Lemma PersistMetadata_same_bytes_witness :
  exists content,
    fst (fst (PersistMetadata Scenario.persisted_at no_faults ∅ Scenario.fresh))
      !! metaFile Scenario.fresh = Some content
    /\ fst (fst (PersistMetadata Scenario.persisted_at no_faults ∅
                   SampleMore.other_replica))
         !! metaFile SampleMore.other_replica = Some content.
Proof.
  apply (PersistMetadata_same_bytes Scenario.persisted_at no_faults no_faults ∅ ∅
           _ _ Scenario.fresh SampleMore.other_replica
           Scenario.settled Scenario.settled).
  - reflexivity.
  - reflexivity.
  - reflexivity.
  - cbn. symmetry.
    apply (Permutation_cons_append [mkPeer 3 "h3:9000"; mkPeer 1 "h1:9000"]
             (mkPeer 2 "h2:9000")).
  - cbn. constructor; [cbn; intros [E|[E|[]]]; discriminate|].
    constructor; [cbn; intros [E|[]]; discriminate|].
    constructor; [intros []|constructor].
  - vm_compute. reflexivity.
  - vm_compute. reflexivity.
  - vm_compute. reflexivity.
  - vm_compute. reflexivity.
Defined.

Lemma LoadDataPartition_sound_witness :
  exists data meta,
    SampleMore.created_files
      !! path_Join "/data/datapartition_7_1073741824" DataPartitionMetadataFileName
    = Some data
    /\ json_Unmarshal_Meta data = inl meta
    /\ TrimSpace (VolumeID meta) <> EmptyString
    /\ PartitionID meta <> 0 /\ PartitionSize meta <> 0
    /\ volumeID Scenario.settled = TrimSpace (VolumeID meta)
    /\ partitionID Scenario.settled = PartitionID meta
    /\ partitionSize Scenario.settled = PartitionSize meta
    /\ cfgPeers (config Scenario.settled) = Peers meta
    /\ path Scenario.settled
       = path_Join (Path Scenario.dsk) (partitionName Scenario.settled)
    /\ stopC Scenario.settled = chan_open
    /\ (Some (NewError "raft") = None -> raftPartition Scenario.settled = raft_running).
Proof.
  apply (LoadDataPartition_sound
           (mkLoadIO None None (Some (NewError "raft"))) SampleMore.space
           SampleMore.created_files "/data/datapartition_7_1073741824"
           Scenario.dsk Scenario.settled (Some (NewError "raft"))).
  vm_compute. reflexivity.
Defined.


Lemma parseFileName_decimal_witness :
  parseFileName (pretty 2048) = (2048, true).
Proof.
  apply (parseFileName_decimal 2048).
  - unfold maxUint64. lia.
  - vm_compute. reflexivity.
Defined.

Lemma parseFileName_range_witness :
  0 <= 3 <= maxUint64
  /\ (true = true ->
      RegexpExtentFile_MatchString "3" = true /\ ParseUint "3" = (3, None)).
Proof.
  apply (parseFileName_range "3" 3 true). vm_compute. reflexivity.
Defined.

Lemma computeUsage_sums_witness :
  computeUsage 1000 1001 Scenario.fsys Scenario.fresh
  = Upd.usage Scenario.fresh
      (foldr Z.add 0
         (map (actualSize Scenario.fsys (path Scenario.fresh)) Scenario.dir_files))
      1001.
Proof.
  apply (computeUsage_sums 1000 1001 Scenario.fsys Scenario.fresh Scenario.dir_files).
  - vm_compute. discriminate.
  - reflexivity.
  - repeat constructor; vm_compute; discriminate.
  - vm_compute. discriminate.
Defined.

Lemma updateReplicas_failure_witness :
  updateReplicas 1000 1001 (fun _ => inr (NewError "master down")) Scenario.fresh
  = Returns (Upd.leader Scenario.fresh false, Some (NewError "master down")).
Proof.
  apply (updateReplicas_failure 1000 1001 (fun _ => inr (NewError "master down"))
           Scenario.fresh (NewError "master down")).
  - vm_compute. reflexivity.
  - left. reflexivity.
Defined.

Lemma mainTick_kind_witness :
  exists sch' launched,
    mainTick SampleMore.tick SampleMore.sched0 = Returns (sch', launched)
    /\ index sch' = (index SampleMore.sched0 + 1) mod MaxUint32
    /\ forall k, launched = Some k ->
         (k = TinyExtentType <-> Z.even (index sch') = true)
         /\ isLeader (part sch') = true.
Proof.
  eexists _, _. split; [vm_compute; reflexivity|].
  apply (mainTick_kind SampleMore.tick SampleMore.sched0).
  - vm_compute. split; [discriminate|reflexivity].
  - vm_compute. reflexivity.
Defined.

Lemma runTicks_index_witness :
  exists sch',
    runTicks [SampleMore.tick; SampleMore.tick] SampleMore.sched0 = Returns sch'
    /\ index sch' = (index SampleMore.sched0 + 2) mod MaxUint32.
Proof.
  eexists. split; [vm_compute; reflexivity|].
  apply (runTicks_index [SampleMore.tick; SampleMore.tick] SampleMore.sched0).
  - vm_compute. split; [discriminate|reflexivity].
  - vm_compute. reflexivity.
Defined.

Lemma createExtents_nothing_missing_witness :
  createExtents Scenario.store0 SampleMore.task_present
  = (Scenario.store0,
     mkTask (ExtentsToBeCreated SampleMore.task_present)
       (ExtentsToBeRepaired SampleMore.task_present
        ++ map repairInfo
             (List.filter (fun e => negb (IsTinyExtent (FileID e)))
                (ExtentsToBeCreated SampleMore.task_present)))).
Proof.
  apply (createExtents_nothing_missing Scenario.store0 SampleMore.task_present).
  constructor; [left; reflexivity|].
  constructor; [right; reflexivity|constructor].
Defined.

Lemma repair_no_deadlock_witness :
  exists s',
    repair_reachable
      (mkRS [mkExtentInfo 3000 0 300 "h1:9000"] 1 1
         (Sample.mkMem [2000; 3000] [4000] false) AtLoop) s'
    /\ loc s' = Returned /\ inflight s' = 0.
Proof.
  apply (repair_no_deadlock Scenario.store0 Scenario.task).
  apply rtc_once.
  exact (step_dispatch (mkExtentInfo 2000 0 200 "h1:9000")
           [mkExtentInfo 3000 0 300 "h1:9000"] 0 0
           (Sample.mkMem [2000; 3000] [4000] false) eq_refl).
Defined.

Lemma repair_dispatch_count_witness :
  0 <= 1
  /\ 1 + Z.of_nat (length [mkExtentInfo 3000 0 300 "h1:9000"])
     <= Z.of_nat (length (ExtentsToBeCreated Scenario.task)
                  + length (ExtentsToBeRepaired Scenario.task)).
Proof.
  apply (repair_dispatch_count Scenario.store0 Scenario.task
           (mkRS [mkExtentInfo 3000 0 300 "h1:9000"] 1 1
              (Sample.mkMem [2000; 3000] [4000] false) AtLoop)).
  - vm_compute. discriminate.
  - apply rtc_once.
    exact (step_dispatch (mkExtentInfo 2000 0 200 "h1:9000")
             [mkExtentInfo 3000 0 300 "h1:9000"] 0 0
             (Sample.mkMem [2000; 3000] [4000] false) eq_refl).
Defined.

Lemma newDataPartition_path_inj_witness :
  cfgPartitionID Scenario.cfg = cfgPartitionID (config SampleMore.other_replica)
  /\ cfgPartitionSize Scenario.cfg = cfgPartitionSize (config SampleMore.other_replica).
Proof.
  apply (newDataPartition_path_inj Scenario.cfg (config SampleMore.other_replica)
           Scenario.dsk Scenario.fresh SampleMore.other_replica).
  - vm_compute. reflexivity.
  - vm_compute. reflexivity.
  - reflexivity.
Defined.

Lemma PersistMetadata_fresh_witness :
  let files' :=
    fst (fst (PersistMetadata Scenario.persisted_at no_faults ∅ Scenario.fresh)) in
  let md := metadataOf Scenario.persisted_at (config Scenario.settled) in
  files' !! metaFile Scenario.fresh = Some (json_Marshal md)
  /\ files' !! tempFile Scenario.fresh = None
  /\ StronglySorted (fun p q => ID p <= ID q) (Peers md)
  /\ Permutation (Peers md) (cfgPeers (config Scenario.fresh)).
Proof.
  apply (PersistMetadata_fresh Scenario.persisted_at no_faults ∅ _
           Scenario.fresh Scenario.settled).
  - vm_compute. reflexivity.
  - vm_compute. reflexivity.
Defined.


Lemma LoadDataPartition_invalid_witness :
  LoadDataPartition SampleMore.load_ok SampleMore.space
    {[ "/data/datapartition_7_1073741824/META" := "{}" ]}
    "/data/datapartition_7_1073741824" Scenario.dsk
  = (None, Some (NewError "illegal data partition metadata")).
Proof.
  apply (LoadDataPartition_invalid SampleMore.load_ok SampleMore.space
           {[ "/data/datapartition_7_1073741824/META" := "{}" ]}
           "/data/datapartition_7_1073741824" Scenario.dsk "{}"
           (mkMeta EmptyString 0 0 EmptyString [])).
  - vm_compute. reflexivity.
  - reflexivity.
  - vm_compute. reflexivity.
  - left. vm_compute. reflexivity.
Defined.
